(** * The error log of the Fastly CLI (package [errors])

    A shallow embedding of [pkg/errors/log.go]: the in-memory list of
    recorded log entries ([LogEntries]), the recording operations [Add] and
    [AddWithContext], the token redaction [FilterToken], the telemetry
    forwarder [instrument] and the persistence routine [Persist] with its
    size-based rotation of the audit log file.

    Go strings are byte strings and are modelled by [string]; a Go
    [map[string]any] is a [gmap string any] under an [option] (the [nil]
    map is [None]); the [error] interface is an optional message.  The
    clock, the call stack, the file system and the telemetry backend are
    explicit state. *)

From Stdlib Require Import ZArith DecimalString Ascii String.
From stdpp Require Import base gmap strings list sorting.


(** ** Go strings *)

Module GoString.

(** The line feed and the double quote, by character code. *)
Definition nl : string := String "010"%char "".
Definition dquote : ascii := "034"%char.

(** [s[i:]] *)
Fixpoint slice_from (s : string) (i : nat) : string :=
  match i, s with
  | O, _ => s
  | S i', String _ s' => slice_from s' i'
  | S _, EmptyString => EmptyString
  end.

(** [s[:i]] *)
Fixpoint slice_to (s : string) (i : nat) : string :=
  match i, s with
  | O, _ => EmptyString
  | S i', String c s' => String c (slice_to s' i')
  | S _, EmptyString => EmptyString
  end.

(** The longest prefix of bytes that satisfy [p], and what follows it. *)
Fixpoint take_while (p : ascii → bool) (s : list ascii) : list ascii :=
  match s with
  | c :: s' => if p c then c :: take_while p s' else []
  | [] => []
  end.

Fixpoint drop_while (p : ascii → bool) (s : list ascii) : list ascii :=
  match s with
  | c :: s' => if p c then drop_while p s' else s
  | [] => []
  end.

(** At most one leading byte that satisfies [p]. *)
Definition take_opt (p : ascii → bool) (s : list ascii) : list ascii :=
  match s with
  | c :: _ => if p c then [c] else []
  | [] => []
  end.

Definition drop_opt (p : ascii → bool) (s : list ascii) : list ascii :=
  match s with
  | c :: s' => if p c then s' else s
  | [] => []
  end.

(** [s] without its prefix [p], when it has it. *)
Fixpoint strip_prefix (p s : list ascii) : option (list ascii) :=
  match p, s with
  | [], _ => Some s
  | a :: p', b :: s' => if Ascii.eqb a b then strip_prefix p' s' else None
  | _ :: _, [] => None
  end.

(** [strings.Join(elems, sep)] *)
Definition Join (elems : list string) (sep : string) : string :=
  String.concat sep elems.

(** [strings.Index(s, substr)]: the first index of [substr] in [s], or -1. *)
Definition Index (s substr : string) : Z :=
  match String.index 0 substr s with
  | Some i => Z.of_nat i
  | None => (-1)%Z
  end.

(** [strings.Split(s, sep)[0]]: the part of [s] before the first [sep]. *)
Definition Split_first (s sep : string) : string :=
  match String.index 0 sep s with
  | Some i => slice_to s i
  | None => s
  end.

(** The [%d] verb of [fmt]. *)
Definition itoa (z : Z) : string := NilZero.string_of_int (Z.to_int z).

(** The concatenation of a list of strings. *)
Definition concat_all (ls : list string) : string :=
  foldr String.append "" ls.

End GoString.
Import GoString.

(** ** Data model *)

(** A value of the interface type [error]: [None] is the nil error, [Some m]
    an error whose [Error()] method returns [m]. *)
Abbreviation error := (option string).

(** A value of type [any].  The code inspects the dynamic types [bool],
    [int] and [string]; [VNil] is the nil interface, [VOpaque] a channel or
    function (which the template engine refuses to print) and [VOther] any
    other value, carried with its default [fmt] rendering. *)
Inductive any : Type :=
  | VBool (b : bool)
  | VInt (n : Z)
  | VString (s : string)
  | VNil
  | VOpaque
  | VOther (repr : string).

(** A [map[string]any]; [None] is the nil map. *)
Abbreviation gomap := (option (gmap string any)).

(** Indexing a map that may be nil: [v, ok := m[k]]. *)
Definition map_get (m : gomap) (k : string) : option any :=
  match m with
  | Some g => g !! k
  | None => None
  end.

(** A [time.Time] instant, in nanoseconds since the zero time. *)
Abbreviation time := Z.

(** [AllowInstrumentation] sends errors to Sentry if set to boolean true. *)
Definition AllowInstrumentation : string := "AllowInstrumentation".

(** [LogEntry] represents a single error log entry. *)
Record LogEntry : Type := mkLogEntry {
  Time : time;
  Err : error;
  Caller : gomap;
  Context : gomap
}.

(** [LogEntries] represents a list of recorded log entries. *)
Abbreviation LogEntries := (list LogEntry).

(** ** Recording *)

(** What the environment answers during one recording call: the reading of
    the clock [Now()] and the result of [runtime.Caller(2)] (file and line
    of the frame, or [None] when the frame cannot be recovered). *)
Record site : Type := mkSite {
  site_now : time;
  site_frame : option (string * Z)
}.

(** [createLogEntry] generates the boilerplate of a [LogEntry]. *)
Definition createLogEntry (st : site) (err : error) : LogEntry :=
  match site_frame st with
  | Some (file, line) =>
      let idx := Index file "/pkg/" in
      let idx := if (idx =? -1)%Z then 0%Z else idx in
      {| Time := site_now st;
         Err := err;
         Caller := Some (<["FILE" := VString (slice_from file (Z.to_nat idx))]>
                         (<["LINE" := VInt line]> ∅));
         Context := None |}
  | None =>
      {| Time := site_now st; Err := err; Caller := None; Context := None |}
  end.

(** [Add] adds a new log entry (the lock around the append is not
    modelled: calls are sequential). *)
Definition Add (st : site) (err : error) (l : LogEntries) : LogEntries :=
  l ++ [createLogEntry st err].

(** [AddWithContext] adds a new log entry with extra contextual data. *)
Definition AddWithContext (st : site) (err : error) (ctx : gomap)
    (l : LogEntries) : LogEntries :=
  let le := createLogEntry st err in
  let le := {| Time := Time le; Err := Err le; Caller := Caller le;
               Context := ctx |} in
  l ++ [le].

(** A recording call, with the environment's answers and its arguments. *)
Inductive call : Type :=
  | CallAdd (st : site) (err : error)
  | CallAddWithContext (st : site) (err : error) (ctx : gomap).

Definition call_err (c : call) : error :=
  match c with
  | CallAdd _ err => err
  | CallAddWithContext _ err _ => err
  end.

Definition do_call (l : LogEntries) (c : call) : LogEntries :=
  match c with
  | CallAdd st err => Add st err l
  | CallAddWithContext st err ctx => AddWithContext st err ctx l
  end.

(** The entry a call appends. *)
Definition entry_of_call (c : call) : LogEntry :=
  match c with
  | CallAdd st err => createLogEntry st err
  | CallAddWithContext st err ctx =>
      let le := createLogEntry st err in
      {| Time := Time le; Err := Err le; Caller := Caller le; Context := ctx |}
  end.

(** The store after a sequence of recording calls. *)
Definition record_all (calls : list call) (l : LogEntries) : LogEntries :=
  foldl do_call l calls.

(** ** Telemetry *)

(** A [sentry.Breadcrumb], with the fields this package sets. *)
Record Breadcrumb : Type := mkBreadcrumb {
  Category : string;
  Data : gomap;
  Message : string;
  Timestamp : time;
  Type_ : string
}.

(** What the telemetry client receives, in order. *)
Inductive event : Type :=
  | AddBreadcrumb (b : Breadcrumb)
  | CaptureException (err : error).

Abbreviation telemetry := (list event).

(** A call either returns or panics. *)
Inductive completion : Type :=
  | Completed
  | Panicked (msg : string).

(** [filepath.Base] with the separator of Unix: trailing slashes are
    stripped and the last element is kept. *)
Definition is_slash (c : ascii) : bool := Ascii.eqb c "/".

Definition filepath_Base (path : string) : string :=
  match path with
  | EmptyString => "."
  | _ =>
      let r := drop_while is_slash (rev (list_ascii_of_string path)) in
      match take_while (λ c, negb (is_slash c)) r with
      | [] => "/"
      | name => string_of_list_ascii (rev name)
      end
  end.

(** The three guards at the head of the loop of [instrument]: the entry is
    passed over when its context is nil, when the key is not set, and when
    the value is the boolean false. *)
Definition skipped (entry : LogEntry) : bool :=
  match Context entry with
  | None => true
  | Some ctx =>
      match ctx !! "AllowInstrumentation" with
      | None => true
      | Some si =>
          match si with
          | VBool allow => negb allow
          | _ => false
          end
      end
  end.

(** The breadcrumb of an entry that is not passed over. *)
Definition entry_breadcrumb (entry : LogEntry) : Breadcrumb :=
  let file :=
    match map_get (Caller entry) "FILE" with
    | Some (VString s) => s
    | _ => ""
    end in
  let line :=
    match map_get (Caller entry) "LINE" with
    | Some (VInt n) => n
    | _ => 0%Z
    end in
  let err :=
    match Err entry with
    | Some m => m
    | None => "unknown"
    end in
  {| Data := Context entry;
     Message := err +:+ " (file: " +:+ file +:+ ", line: " +:+ itoa line +:+ ")";
     Timestamp := Time entry;
     Type_ := "error";
     Category :=
       match file with
       | EmptyString => ""
       | _ => Split_first (filepath_Base file) ".go"
       end |}.

Definition instrument_entry (tel : telemetry) (entry : LogEntry) : telemetry :=
  if skipped entry then tel
  else tel ++ [AddBreadcrumb (entry_breadcrumb entry)].

(** The breadcrumb of the command line. *)
Definition command_breadcrumb (cmd : string) : Breadcrumb :=
  {| Category := "input"; Data := None; Message := cmd; Timestamp := 0%Z;
     Type_ := "info" |}.

(** [instrument] reports errors to our error analysis platform.  The last
    statement indexes [l[len(l)-1]], which panics on an empty list. *)
Definition instrument (l : LogEntries) (cmd : string) (tel : telemetry)
    : telemetry * completion :=
  let tel := tel ++ [AddBreadcrumb (command_breadcrumb cmd)] in
  let tel := foldl instrument_entry tel l in
  match last l with
  | Some entry => (tel ++ [CaptureException (Err entry)], Completed)
  | None => (tel, Panicked "index out of range [-1]")
  end.

(** ** Files *)

(** The errors the operating system answers with, when it does: one for
    each kind of call, and one for each call of [Write], numbered from 0. *)
Record io_faults : Type := mkFaults {
  open_err : error;
  stat_err : error;
  close_err : error;
  create_err : error;
  write_err : nat → error
}.

Definition no_faults : io_faults :=
  {| open_err := None; stat_err := None; close_err := None;
     create_err := None; write_err := λ _, None |}.

(** An open [*os.File]: its path, whether it was opened with [O_APPEND],
    and the offset of the next write when it was not. *)
Record open_file : Type := mkOpenFile {
  of_path : string;
  of_append : bool;
  of_offset : nat
}.

(** The state outside the log: the files by path, the table of open
    descriptors, the number of [Write] calls made, what the telemetry
    client has received, the package variable [FileRotationSize] and the
    faults of the operating system. *)
Record world : Type := mkWorld {
  files : gmap string string;
  fds : gmap nat open_file;
  next_fd : nat;
  writes : nat;
  sentry : telemetry;
  FileRotationSize : Z;
  faults : io_faults
}.

(** [FileRotationSize] represents the size the log file needs to be before
    we truncate it: 5mb, unless a test changes it. *)
Definition FileRotationSize_default : Z := 5242880.

Definition with_files (w : world) (fs : gmap string string)
    (tbl : gmap nat open_file) : world :=
  {| files := fs; fds := tbl; next_fd := next_fd w; writes := writes w;
     sentry := sentry w; FileRotationSize := FileRotationSize w;
     faults := faults w |}.

(** The outcome of a call that returns an [error]. *)
Inductive result (A : Type) : Type :=
  | Returned (a : A)
  | Failed (err : string)
  | Panic (msg : string).
Arguments Returned {A} a.
Arguments Failed {A} err.
Arguments Panic {A} msg.

Definition panics {A : Type} (r : result A) : bool :=
  match r with
  | Panic _ => true
  | _ => false
  end.

(** Computations over the world that may fail or panic. *)
Definition M (A : Type) : Type := world → world * result A.

Global Instance M_ret : MRet M := λ A a w, (w, Returned a).

Global Instance M_bind : MBind M := λ A B k m w,
  match m w with
  | (w', Returned a) => k a w'
  | (w', Failed err) => (w', Failed err)
  | (w', Panic msg) => (w', Panic msg)
  end.

(** [return err] *)
Definition fail {A : Type} (err : string) : M A := λ w, (w, Failed err).

(** [fmt.Errorf(prefix + "%w", err)] on the error of [m]. *)
Definition wrap_error {A : Type} (pre : string) (m : M A) : M A := λ w,
  match m w with
  | (w', Failed err) => (w', Failed (pre +:+ err))
  | r => r
  end.

(** [v, err := m] with the error kept as a value. *)
Definition attempt {A : Type} (m : M A) : M (option A) := λ w,
  match m w with
  | (w', Returned a) => (w', Returned (Some a))
  | (w', Failed _) => (w', Returned None)
  | (w', Panic msg) => (w', Panic msg)
  end.

(** [defer cleanup]: [cleanup] runs when [body] is over, however it ends,
    and its own outcome is dropped. *)
Definition defer {A : Type} (cleanup : M unit) (body : M A) : M A := λ w,
  match body w with
  | (w', r) => (fst (cleanup w'), r)
  end.

(** [os.OpenFile(name, O_APPEND|O_CREATE|O_WRONLY, 0o600)] *)
Definition OpenFile (name : string) : M nat := λ w,
  match open_err (faults w) with
  | Some err => (w, Failed err)
  | None =>
      let fd := next_fd w in
      let fs :=
        match files w !! name with
        | Some _ => files w
        | None => <[name := ""]> (files w)
        end in
      ({| files := fs;
          fds := <[fd := {| of_path := name; of_append := true;
                            of_offset := 0 |}]> (fds w);
          next_fd := S fd; writes := writes w; sentry := sentry w;
          FileRotationSize := FileRotationSize w; faults := faults w |},
       Returned fd)
  end.

(** [os.Create(name)]: the file is truncated, or created empty. *)
Definition Create (name : string) : M nat := λ w,
  match create_err (faults w) with
  | Some err => (w, Failed err)
  | None =>
      let fd := next_fd w in
      ({| files := <[name := ""]> (files w);
          fds := <[fd := {| of_path := name; of_append := false;
                            of_offset := 0 |}]> (fds w);
          next_fd := S fd; writes := writes w; sentry := sentry w;
          FileRotationSize := FileRotationSize w; faults := faults w |},
       Returned fd)
  end.

(** [f.Stat()], of which the size is used. *)
Definition Stat (fd : nat) : M Z := λ w,
  match stat_err (faults w) with
  | Some err => (w, Failed err)
  | None =>
      match fds w !! fd with
      | Some f =>
          (w, Returned (Z.of_nat (String.length
                                    (default "" (files w !! of_path f)))))
      | None => (w, Failed "file already closed")
      end
  end.

(** [f.Close()] *)
Definition Close (fd : nat) : M unit := λ w,
  let w' := with_files w (files w) (delete fd (fds w)) in
  match fds w !! fd with
  | None => (w, Failed "file already closed")
  | Some _ =>
      match close_err (faults w) with
      | Some err => (w', Failed err)
      | None => (w', Returned tt)
      end
  end.

(** The content of a file after [data] is written at offset [off]. *)
Definition write_at (content : string) (off : nat) (data : string) : string :=
  slice_to content off +:+ data
  +:+ slice_from content (off + String.length data).

(** [f.Write(data)]: at the end of the file for a descriptor opened with
    [O_APPEND], at the offset of the descriptor otherwise.  A write that
    fails writes nothing. *)
Definition Write (fd : nat) (data : string) : M unit := λ w,
  let w1 :=
    {| files := files w; fds := fds w; next_fd := next_fd w;
       writes := S (writes w); sentry := sentry w;
       FileRotationSize := FileRotationSize w; faults := faults w |} in
  match write_err (faults w) (writes w) with
  | Some err => (w1, Failed err)
  | None =>
      match fds w !! fd with
      | None => (w1, Failed "file already closed")
      | Some f =>
          let content := default "" (files w !! of_path f) in
          let content' :=
            if of_append f then content +:+ data
            else write_at content (of_offset f) data in
          let f' :=
            {| of_path := of_path f; of_append := of_append f;
               of_offset := of_offset f + String.length data |} in
          (with_files w1 (<[of_path f := content']> (files w))
                      (<[fd := f']> (fds w)),
           Returned tt)
      end
  end.

(** ** Rendering and persistence *)

(** The keys of a map in the order [text/template] ranges over it: sorted. *)
Definition key_le (a b : string * any) : Prop := String.le a.1 b.1.

Global Instance key_le_dec : RelDecision key_le.
Proof. intros a b. unfold key_le. apply _. Defined.

Definition sorted_pairs (m : gomap) : list (string * any) :=
  match m with
  | Some g => merge_sort key_le (map_to_list g)
  | None => []
  end.

(** What the template engine prints for a value of a map, if it can. *)
Definition print_any (v : any) : option string :=
  match v with
  | VBool true => Some "true"
  | VBool false => Some "false"
  | VInt n => Some (itoa n)
  | VString s => Some s
  | VNil => Some "<no value>"
  | VOpaque => None
  | VOther repr => Some repr
  end.

(** What the template engine prints for the field [Err]. *)
Definition print_error (err : error) : string :=
  match err with
  | Some m => m
  | None => "<nil>"
  end.

Section Persistence.

(** The [String] method of [time.Time]. *)
Variable time_String : time → string.

(** The template of a record:
<<
TIMESTAMP:
{{.Time}}

ERROR:
{{.Err}}
{{ range $key, $value := .Caller }}
{{ $key }}:
{{ $value }}
{{ end }}
{{ range $key, $value := .Context }}
  {{ $key }}: {{ $value }}
{{ end }}
>>
    Each text between two actions and each printed value is one [Write] on
    the file.  The pieces below are those writes for one entry, in order;
    [None] stands for a value that cannot be printed. *)
Definition caller_pieces (kv : string * any) : list (option string) :=
  [Some nl; Some kv.1; Some (":" +:+ nl); print_any kv.2; Some nl].

Definition context_pieces (kv : string * any) : list (option string) :=
  [Some (nl +:+ "  "); Some kv.1; Some ": "; print_any kv.2; Some nl].

Definition record_pieces (entry : LogEntry) : list (option string) :=
  [Some ("TIMESTAMP:" +:+ nl);
   Some (time_String (Time entry));
   Some (nl +:+ nl +:+ "ERROR:" +:+ nl);
   Some (print_error (Err entry));
   Some nl]
  ++ concat (caller_pieces <$> sorted_pairs (Caller entry))
  ++ [Some nl]
  ++ concat (context_pieces <$> sorted_pairs (Context entry))
  ++ [Some nl].

(** [t.Execute(f, entry)]: the pieces are written in turn; the first
    failure ends the execution. *)
Fixpoint write_pieces (fd : nat) (ps : list (option string)) : M unit :=
  match ps with
  | [] => mret tt
  | Some s :: ps' => Write fd s ;; write_pieces fd ps'
  | None :: _ => fail "template: record: can't print value"
  end.

Definition Execute (fd : nat) (entry : LogEntry) : M unit :=
  write_pieces fd (record_pieces entry).

(** [for _, entry := range l { ... }] *)
Fixpoint Execute_all (fd : nat) (l : LogEntries) : M unit :=
  match l with
  | [] => mret tt
  | entry :: l' => Execute fd entry ;; Execute_all fd l'
  end.

(** The call of [instrument], on the telemetry of the world. *)
Definition do_instrument (l : LogEntries) (cmd : string) : M unit := λ w,
  let '(tel, c) := instrument l cmd (sentry w) in
  let w' :=
    {| files := files w; fds := fds w; next_fd := next_fd w;
       writes := writes w; sentry := tel;
       FileRotationSize := FileRotationSize w; faults := faults w |} in
  match c with
  | Completed => (w', Returned tt)
  | Panicked msg => (w', Panic msg)
  end.

Definition errMsg : string := "error accessing audit log file: ".

Definition separator : string :=
  "------------------------------" +:+ nl +:+ nl.

(** The rotation: the file that has reached [FileRotationSize] is closed
    and created anew. *)
Definition rotate (logPath : string) (f : nat) : M nat :=
  fi ← attempt (Stat f);
  match fi with
  | Some size =>
      threshold ← (λ w, (w, Returned (FileRotationSize w)));
      if decide (threshold ≤ size)%Z then
        Close f ;; wrap_error errMsg (Create logPath)
      else mret f
  | None => mret f
  end.

(** [Persist] persists recorded log entries to disk. *)
Definition Persist (l : LogEntries) (logPath : string) (args : list string)
    : M unit :=
  if decide (length l = 0) then mret tt
  else
    let cmd := "fastly " +:+ Join args " " in
    do_instrument l cmd ;;
    f ← wrap_error errMsg (OpenFile logPath);
    f ← rotate logPath f;
    defer (Close f)
      (let cmd := nl +:+ "COMMAND:" +:+ nl +:+ cmd +:+ nl +:+ nl in
       Write f cmd ;;
       Execute_all f l ;;
       Write f separator).

End Persistence.

(** ** Regular expressions

    The fragment of Go's [regexp] syntax that the two patterns of this
    package use, with the semantics the package documents: a match is found
    by a backtracking search that prefers the first alternative of [|] and
    the longest repetition of [*], [+] and [?] (leftmost-first matching).
    Input is a byte sequence; every class and literal of the two patterns is
    ASCII, so bytes and runes match alike. *)

Module Regexp.

Inductive regex : Type :=
  | Empty
  | Chr (c : ascii)
  | Class (p : ascii → bool)
  | Seq (r1 r2 : regex)
  | Alt (r1 r2 : regex)
  | Star (r : regex)
  | Plus (r : regex)
  | Opt (r : regex)
  | Group (i : nat) (r : regex).

(** A literal string. *)
Fixpoint Str (s : list ascii) : regex :=
  match s with
  | [] => Empty
  | c :: s' => Seq (Chr c) (Str s')
  end.

(** The text of the capturing groups, by group number. *)
Abbreviation captures := (gmap nat (list ascii)).

(** A match: the captures and the input left after it. *)
Abbreviation outcome := (option (captures * list ascii)).

(** What remains to be matched after a subexpression. *)
Abbreviation cont := (list ascii → captures → outcome).

Definition or_else (a b : outcome) : outcome :=
  match a with
  | Some x => Some x
  | None => b
  end.

(** Greedy iteration: one more round of [step] is tried before the
    continuation.  A round must consume input, so [fuel], the length of
    the input, bounds the number of rounds. *)
Fixpoint star_loop (step : list ascii → captures → cont → outcome)
    (fuel : nat) (s : list ascii) (caps : captures) (k : cont) : outcome :=
  match fuel with
  | O => k s caps
  | S fuel' =>
      or_else
        (step s caps (λ s' caps',
           if decide (length s' < length s)
           then star_loop step fuel' s' caps' k
           else None))
        (k s caps)
  end.

(** The backtracking matcher, in continuation-passing style. *)
Fixpoint run (r : regex) (s : list ascii) (caps : captures) (k : cont)
    {struct r} : outcome :=
  match r with
  | Empty => k s caps
  | Chr c =>
      match s with
      | c' :: s' => if Ascii.eqb c c' then k s' caps else None
      | [] => None
      end
  | Class p =>
      match s with
      | c' :: s' => if p c' then k s' caps else None
      | [] => None
      end
  | Seq r1 r2 => run r1 s caps (λ s' caps', run r2 s' caps' k)
  | Alt r1 r2 => or_else (run r1 s caps k) (run r2 s caps k)
  | Star r1 => star_loop (run r1) (length s) s caps k
  | Plus r1 =>
      run r1 s caps (λ s' caps', star_loop (run r1) (length s') s' caps' k)
  | Opt r1 => or_else (run r1 s caps k) (k s caps)
  | Group i r1 =>
      run r1 s caps (λ s' caps',
        k s' (<[i := take (length s - length s') s]> caps'))
  end.

(** The preferred match of [r] that starts at the head of [s]. *)
Definition match_at (r : regex) (s : list ascii) : outcome :=
  run r s ∅ (λ s' caps, Some (caps, s')).

(** A replacement template: literal text and group references [${i}]. *)
Inductive piece : Type :=
  | Lit (s : list ascii)
  | Ref (i : nat).

Definition expand_piece (caps : captures) (p : piece) : list ascii :=
  match p with
  | Lit s => s
  | Ref i => default [] (caps !! i)
  end.

Definition expand (tpl : list piece) (caps : captures) : list ascii :=
  concat (expand_piece caps <$> tpl).

(** The left-to-right rewriting loop of [ReplaceAllString]: at each
    position [step] either rewrites a match (its replacement and the
    number of bytes matched) or the byte is copied; the search resumes
    after the match.  [skip] counts the bytes of the current match still
    to pass over.  A match of length 0 is followed by a copied byte;
    neither pattern of this package has one. *)
Fixpoint scan (step : list ascii → option (list ascii * nat))
    (skip : nat) (s : list ascii) : list ascii :=
  match s with
  | [] => []
  | c :: s' =>
      match skip with
      | S n => scan step n s'
      | O =>
          match step s with
          | Some (out, S n) => out ++ scan step n s'
          | Some (out, O) => out ++ c :: scan step 0 s'
          | None => c :: scan step 0 s'
          end
      end
  end.

(** One step of [ReplaceAllString(src, repl)] for the expression [r]. *)
Definition replace_step (r : regex) (tpl : list piece) (s : list ascii)
    : option (list ascii * nat) :=
  match match_at r s with
  | Some (caps, rest) => Some (expand tpl caps, length s - length rest)
  | None => None
  end.

Definition ReplaceAllString (r : regex) (tpl : list piece)
    (src : list ascii) : list ascii :=
  scan (replace_step r tpl) 0 src.

End Regexp.
Import Regexp.

(** ** Redaction *)

(** The bytes of a string literal. *)
Abbreviation chars := list_ascii_of_string.

Definition in_range (lo hi c : ascii) : bool :=
  (N_of_ascii lo <=? N_of_ascii c)%N && (N_of_ascii c <=? N_of_ascii hi)%N.

(** [\w]: the class [[0-9A-Za-z_]]. *)
Definition is_word (c : ascii) : bool :=
  in_range "0" "9" c || in_range "A" "Z" c || in_range "a" "z" c
  || Ascii.eqb c "_".

(** [[\w-]] *)
Definition is_token_char (c : ascii) : bool := is_word c || Ascii.eqb c "-".

(** [\s]: the class [[\t\n\f\r ]]. *)
Definition is_space (c : ascii) : bool :=
  Ascii.eqb c "009" || Ascii.eqb c "010" || Ascii.eqb c "012"
  || Ascii.eqb c "013" || Ascii.eqb c " ".

(** The class of the single and the double quote. *)
Definition is_quote (c : ascii) : bool :=
  Ascii.eqb c "'" || Ascii.eqb c dquote.

Definition is_equals (c : ascii) : bool := Ascii.eqb c "=".

(** [TokenRegEx] matches a Token as part of the error output:
    [Token ([\w-]+)]. *)
Definition TokenRegEx : regex :=
  Seq (Str (chars "Token ")) (Group 1 (Plus (Class is_token_char))).

(** [TokenFlagRegEx] matches the token flag:
    a flag, a separator, a value and a closing quote, each in a group. *)
Definition TokenFlagRegEx : regex :=
  Seq (Group 1 (Alt (Str (chars "-t")) (Str (chars "--token"))))
 (Seq (Group 2 (Seq (Star (Class is_space))
               (Seq (Opt (Chr "="))
               (Seq (Star (Class is_space))
                    (Opt (Class is_quote))))))
 (Seq (Group 3 (Plus (Class is_token_char)))
      (Group 4 (Opt (Class is_quote))))).

Definition REDACTED : list ascii := Eval cbv in chars "REDACTED".

(** The replacement templates [Token REDACTED] and
    [${1}${2}REDACTED${4}]. *)
Definition token_template : list piece := [Lit (chars "Token REDACTED")].
Definition flag_template : list piece := [Ref 1; Ref 2; Lit REDACTED; Ref 4].

(** [FilterToken] replaces any matched patterns with "REDACTED", on the
    bytes of the input. *)
Definition filter_bytes (input : list ascii) : list ascii :=
  let inputFiltered := ReplaceAllString TokenRegEx token_template input in
  let inputFiltered :=
    ReplaceAllString TokenFlagRegEx flag_template inputFiltered in
  inputFiltered.

Definition FilterToken (input : string) : string :=
  string_of_list_ascii (filter_bytes (list_ascii_of_string input)).

(** ** The redaction as the specification words it

    Two rewriting passes, written as direct scans of the text with no
    regular expression. *)

Module Reference.

Definition token_word : list ascii := Eval cbv in chars "Token ".
Definition short_flag : list ascii := Eval cbv in chars "-t".
Definition long_flag : list ascii := Eval cbv in chars "--token".

(** First pass: the word Token, a separator byte that satisfies
    [is_sep], and a token-shaped value; rewritten to Token REDACTED. *)
Definition token_step (is_sep : ascii → bool) (s : list ascii)
    : option (list ascii * nat) :=
  match strip_prefix (chars "Token") s with
  | Some (c :: t) =>
      if is_sep c then
        match take_while is_token_char t with
        | [] => None
        | v => Some (token_word ++ REDACTED, 6 + length v)
        end
      else None
  | _ => None
  end.

(** The flag spelling at the head of [s]. *)
Definition flag_at (s : list ascii) : option (list ascii) :=
  match strip_prefix short_flag s with
  | Some _ => Some short_flag
  | None =>
      match strip_prefix long_flag s with
      | Some _ => Some long_flag
      | None => None
      end
  end.

(** What follows the separator: whitespace, an optional [=], whitespace
    and an optional opening quote. *)
Definition skip_sep (t : list ascii) : list ascii :=
  drop_opt is_quote
    (drop_while is_space (drop_opt is_equals (drop_while is_space t))).

(** Second pass: a flag, its separator, a token-shaped value and an
    optional closing quote; only the value is replaced. *)
Definition flag_step (s : list ascii) : option (list ascii * nat) :=
  match flag_at s with
  | Some fl =>
      let t := drop (length fl) s in
      let r := skip_sep t in
      let sep := take (length t - length r) t in
      match take_while is_token_char r with
      | [] => None
      | v =>
          let q := take_opt is_quote (drop_while is_token_char r) in
          Some (fl ++ sep ++ REDACTED ++ q,
                length fl + length sep + length v + length q)
      end
  | None => None
  end.

(** The separator of the first pass as the specification has it
    (whitespace), and as the pattern has it (one space). *)
Definition is_one_space (c : ascii) : bool := Ascii.eqb c " ".

Definition redact_as_specified (s : list ascii) : list ascii :=
  scan flag_step 0 (scan (token_step is_space) 0 s).

Definition redact (s : list ascii) : list ascii :=
  scan flag_step 0 (scan (token_step is_one_space) 0 s).

End Reference.
Import Reference.

(** ** Notions used in the statements and the proofs *)

(** The matcher consults its continuation only on inputs that are not
    longer than its own. *)
Definition local_step (step : list ascii → captures → cont → outcome) : Prop :=
  ∀ s caps k k',
    (∀ s' caps', length s' ≤ length s → k s' caps' = k' s' caps') →
    step s caps k = step s caps k'.

Ltac by_ascii_cases c :=
  destruct c as [[] [] [] [] [] [] [] []]; vm_compute; intuition congruence.

Definition head_not_token (u : list ascii) : Prop :=
  match u with
  | c :: _ => is_token_char c = false
  | [] => True
  end.

Definition fails_off_token (k : cont) : Prop :=
  ∀ u caps, head_not_token u → k u caps = None.

(** A step whose replacement starts like the match keeps the first byte. *)
Definition keeps_head (step : list ascii → option (list ascii * nat)) : Prop :=
  ∀ s out n, step s = Some (out, n) → 0 < n ∧ out ≠ [] ∧ head out = head s.

Abbreviation token_pass := (scan (token_step is_one_space) 0).
Abbreviation flag_pass := (scan flag_step 0).

Definition is_flag (fl : list ascii) : Prop := fl = short_flag ∨ fl = long_flag.

(** A position is settled when the word Token, if it starts there, is
    followed by no value or by the value REDACTED. *)
Definition settled (u : list ascii) : Prop :=
  ∀ t, strip_prefix token_word u = Some t →
    head_not_token t ∨ ∃ rest, t = REDACTED ++ rest ∧ head_not_token rest.

Definition clean (t : list ascii) : Prop := ∀ i, settled (drop i t).

(** What a computation does to the telemetry. *)
Definition keeps_sentry {A : Type} (m : M A) : Prop :=
  ∀ w, sentry (fst (m w)) = sentry w.

Definition never_panics {A : Type} (m : M A) : Prop :=
  ∀ w, panics (snd (m w)) = false.

(** What [Persist] does after the call of [instrument]. *)
Definition write_log (tS : time → string) (l : LogEntries)
    (logPath cmd : string) : M unit :=
  f ← wrap_error errMsg (OpenFile logPath);
  f ← rotate logPath f;
  defer (Close f)
    (Write f (nl +:+ "COMMAND:" +:+ nl +:+ cmd +:+ nl +:+ nl) ;;
     Execute_all tS f l ;;
     Write f separator).

(** The descriptor [fd] is open on [path], whose content is [content], and
    its next write lands at the end of the file. *)
Definition ready (w : world) (fd : nat) (path content : string) : Prop :=
  ∃ f, fds w !! fd = Some f ∧ of_path f = path ∧
       files w !! path = Some content ∧
       (of_append f = true ∨ of_offset f = String.length content).

(** The world differs from [w] at most in its files and descriptors. *)
Definition same_setting (w w' : world) : Prop :=
  faults w' = faults w ∧ FileRotationSize w' = FileRotationSize w.

(** The text of pieces that can all be printed. *)
Definition pieces_text (ps : list (option string)) : string :=
  concat_all (default "" <$> ps).

(** The text of the record of an entry. *)
Definition record_text (tS : time → string) (entry : LogEntry) : string :=
  pieces_text (record_pieces tS entry).

(** The content the log file keeps when [Persist] starts to write: none
    when the size has reached [FileRotationSize], all of it otherwise (and
    when the size cannot be read). *)
Definition kept_content (w : world) (path : string) : string :=
  let old := default "" (files w !! path) in
  match stat_err (faults w) with
  | None =>
      if decide (FileRotationSize w ≤ Z.of_nat (String.length old))%Z
      then "" else old
  | Some _ => old
  end.

Definition command_header (cmd : string) : string :=
  nl +:+ "COMMAND:" +:+ nl +:+ cmd +:+ nl +:+ nl.

(** The text one call of [Persist] writes. *)
Definition log_text (tS : time → string) (l : LogEntries) (cmd : string)
    : string :=
  command_header cmd +:+ concat_all (record_text tS <$> l) +:+ separator.

(** The values of a map can all be printed. *)
Definition printable_map (m : gomap) : Prop :=
  ∀ k, map_get m k ≠ Some VOpaque.

Definition printable (entry : LogEntry) : Prop :=
  printable_map (Caller entry) ∧ printable_map (Context entry).

(** ** Notions used in the further properties *)

(** The pieces one call of [Persist] writes, in order: the command header,
    the pieces of each record and the separator. *)
Definition batch_pieces (tS : time → string) (l : LogEntries) (cmd : string)
    : list (option string) :=
  Some (command_header cmd)
  :: concat (record_pieces tS <$> l) ++ [Some separator].

(** No descriptor at or above the next one to be handed out is open. *)
Definition fresh_fds (w : world) : Prop :=
  ∀ fd, next_fd w ≤ fd → fds w !! fd = None.

(** The world [w] differs from [w0] in the file at [path] and in the
    descriptor [fd], open on [path], at most. *)
Definition confined (w0 : world) (fd : nat) (path : string) (w : world)
    : Prop :=
  (∀ p, p ≠ path → files w !! p = files w0 !! p) ∧
  delete fd (fds w) = delete fd (fds w0) ∧
  sentry w = sentry w0 ∧ faults w = faults w0 ∧
  FileRotationSize w = FileRotationSize w0 ∧ next_fd w = next_fd w0.

(** The error the rotation ends with, if a call of it fails: that of
    [Close] as it is, that of [Create] behind the prefix. *)
Definition rotation_error (io : io_faults) : error :=
  match close_err io with
  | Some e => Some e
  | None =>
      match create_err io with
      | Some e => Some (errMsg +:+ e)
      | None => None
      end
  end.

(** A computation leaves the faults and [FileRotationSize] as they are. *)
Definition keeps_setting {A : Type} (m : M A) : Prop :=
  ∀ w, faults (fst (m w)) = faults w ∧
       FileRotationSize (fst (m w)) = FileRotationSize w.

(** The context a recording call passes, [nil] for [Add]. *)
Definition call_ctx (c : call) : gomap :=
  match c with
  | CallAdd _ _ => None
  | CallAddWithContext _ _ ctx => ctx
  end.

(** The site of a recording call. *)
Definition call_site (c : call) : site :=
  match c with
  | CallAdd st _ => st
  | CallAddWithContext st _ _ => st
  end.

(** The path [createLogEntry] stores for the file of a frame: from the
    first [/pkg/] on, or all of it. *)
Definition stored_file (file : string) : string :=
  let idx := Index file "/pkg/" in
  slice_from file (Z.to_nat (if (idx =? -1)%Z then 0%Z else idx)).

(** The lines of a record for the caller, as the template prints them. *)
Definition caller_text (frame : option (string * Z)) : string :=
  match frame with
  | Some (file, line) =>
      nl +:+ "FILE:" +:+ nl +:+ stored_file file +:+ nl
      +:+ nl +:+ "LINE:" +:+ nl +:+ itoa line +:+ nl
  | None => ""
  end.

(** The file and the line [instrument] reads back from the caller of an
    entry recorded at a site. *)
Definition site_file (st : site) : string :=
  match site_frame st with
  | Some (file, _) => stored_file file
  | None => ""
  end.

Definition site_line (st : site) : Z :=
  match site_frame st with
  | Some (_, line) => line
  | None => 0%Z
  end.

(** The bytes of [s] are neither a slash nor a dot. *)
Definition plain_name (s : string) : Prop :=
  Forall (λ c, c ≠ "/"%char ∧ c ≠ "."%char) (list_ascii_of_string s).

(** At most one byte, of the class [p]. *)
Definition opt_byte (p : ascii → bool) (u : list ascii) : Prop :=
  u = [] ∨ ∃ c, u = [c] ∧ p c = true.

(** ** Sample data *)

Module Samples.

Definition sample_site : site :=
  {| site_now := 1000;
     site_frame :=
       Some ("/home/u/cli/pkg/commands/service/describe.go", 42%Z) |}.

Definition bare_site : site := {| site_now := 2000; site_frame := None |}.

Definition sample_calls : list call :=
  [CallAddWithContext sample_site (Some "service lookup failed")
     (Some (<["Service ID" := VString "abc"]>
            (<["AllowInstrumentation" := VBool true]> ∅)));
   CallAdd bare_site (Some "not found")].

Definition sample_entries : LogEntries := record_all sample_calls [].

Definition sample_path : string := "/home/u/.config/fastly/errors.log".

Definition sample_args : list string := ["service"; "describe"].

(** A world with no log file. *)
Definition fresh_world : world :=
  {| files := ∅; fds := ∅; next_fd := 3; writes := 0; sentry := [];
     FileRotationSize := FileRotationSize_default; faults := no_faults |}.

(** A world where a test has set [FileRotationSize] to 8 bytes and the
    log file has the given content. *)
Definition test_world (content : string) : world :=
  {| files := {[ sample_path := content ]}; fds := ∅; next_fd := 3;
     writes := 0; sentry := []; FileRotationSize := 8;
     faults := no_faults |}.

(** The operating system fails the third call of [Write]. *)
Definition third_write_fails : io_faults :=
  {| open_err := None; stat_err := None; close_err := None;
     create_err := None;
     write_err := λ n,
       if decide (n = 2) then Some "no space left on device" else None |}.

(** A world in which the operating system fails the given calls. *)
Definition faulty_world (content : string) (io : io_faults) : world :=
  {| files := {[ sample_path := content ]}; fds := ∅; next_fd := 3;
     writes := 0; sentry := []; FileRotationSize := 8; faults := io |}.

(** The entry whose opt-in marker is the string "false". *)
Definition marked_with_string : LogEntry :=
  {| Time := 1000; Err := Some "lookup failed"; Caller := None;
     Context := Some (<["AllowInstrumentation" := VString "false"]> ∅) |}.

End Samples.
Import Samples.

(** * Properties *)

Lemma do_call_app (l : LogEntries) (c : call) :
  do_call l c = l ++ [entry_of_call c].
Proof. destruct c; reflexivity. Qed.

Lemma record_all_app (calls : list call) (l : LogEntries) :
  record_all calls l = l ++ (entry_of_call <$> calls).
Proof.
  revert l. induction calls as [|c calls IH]; intros l; simpl.
  - by rewrite app_nil_r.
  - unfold record_all in *. simpl. rewrite IH, do_call_app.
    by rewrite <- app_assoc.
Qed.


Example FilterToken_example1 :
  FilterToken "Token abc-123 and --token='abc_123' -t   =  xx, --token ,  -tfoo Token Token x"
  = "Token REDACTED and --token='REDACTED' -t   =  REDACTED, --tREDACTED ,  -tREDACTED Token REDACTED x".
Proof. vm_compute. reflexivity. Qed.

Example redact_example1 :
  string_of_list_ascii (redact (chars "Token abc-123 and --token='abc_123' -t   =  xx, --token ,  -tfoo Token Token x"))
  = "Token REDACTED and --token='REDACTED' -t   =  REDACTED, --tREDACTED ,  -tREDACTED Token REDACTED x".
Proof. vm_compute. reflexivity. Qed.

(** ** Character classes *)

Lemma space_not_token c : is_space c = true → is_token_char c = false.
Proof. by_ascii_cases c. Qed.

Lemma space_not_quote c : is_space c = true → is_quote c = false.
Proof. by_ascii_cases c. Qed.

Lemma space_not_equals c : is_space c = true → is_equals c = false.
Proof. by_ascii_cases c. Qed.

Lemma quote_not_token c : is_quote c = true → is_token_char c = false.
Proof. by_ascii_cases c. Qed.

Lemma equals_not_token c : is_equals c = true → is_token_char c = false.
Proof. by_ascii_cases c. Qed.

Lemma equals_not_quote c : is_equals c = true → is_quote c = false.
Proof. by_ascii_cases c. Qed.

Lemma equals_not_space c : is_equals c = true → is_space c = false.
Proof. by_ascii_cases c. Qed.

Lemma token_not_space c : is_token_char c = true → is_space c = false.
Proof. by_ascii_cases c. Qed.

Lemma token_not_quote c : is_token_char c = true → is_quote c = false.
Proof. by_ascii_cases c. Qed.

Lemma token_not_equals c : is_token_char c = true → is_equals c = false.
Proof. by_ascii_cases c. Qed.

(** ** The matcher on literals and on repeated classes *)

Lemma or_else_None_r (a : outcome) : or_else a None = a.
Proof. by destruct a. Qed.

Lemma take_drop_while p s : take_while p s ++ drop_while p s = s.
Proof. induction s as [|c s IH]; simpl; [done|]. destruct (p c); simpl; by f_equal. Qed.

Lemma take_drop_opt p s : take_opt p s ++ drop_opt p s = s.
Proof. destruct s as [|c s]; simpl; [done|]. by destruct (p c). Qed.

Lemma drop_while_length p s : length (drop_while p s) ≤ length s.
Proof. induction s as [|c s IH]; simpl; [lia|]. destruct (p c); simpl; lia. Qed.

Lemma drop_opt_length p s : length (drop_opt p s) ≤ length s.
Proof. destruct s as [|c s]; simpl; [lia|]. destruct (p c); simpl; lia. Qed.

Lemma run_Seq r1 r2 s caps k :
  run (Seq r1 r2) s caps k = run r1 s caps (λ s' caps', run r2 s' caps' k).
Proof. reflexivity. Qed.

Lemma run_Group i r s caps k :
  run (Group i r) s caps k =
  run r s caps (λ s' caps', k s' (<[i := take (length s - length s') s]> caps')).
Proof. reflexivity. Qed.

Lemma run_Alt r1 r2 s caps k :
  run (Alt r1 r2) s caps k = or_else (run r1 s caps k) (run r2 s caps k).
Proof. reflexivity. Qed.

Lemma run_Opt r s caps k :
  run (Opt r) s caps k = or_else (run r s caps k) (k s caps).
Proof. reflexivity. Qed.

Lemma run_Chr c s caps k :
  run (Chr c) s caps k =
  match s with
  | c' :: s' => if Ascii.eqb c c' then k s' caps else None
  | [] => None
  end.
Proof. reflexivity. Qed.

Lemma run_Star r s caps k :
  run (Star r) s caps k = star_loop (run r) (length s) s caps k.
Proof. reflexivity. Qed.

Lemma run_Str p s caps k :
  run (Str p) s caps k =
  match strip_prefix p s with
  | Some t => k t caps
  | None => None
  end.
Proof.
  revert s. induction p as [|a p IH]; intros s; simpl; [done|].
  destruct s as [|b s]; [done|]. destruct (Ascii.eqb a b); [apply IH|done].
Qed.

(** A greedy repetition of a class hands the input after the longest run to
    the continuation, when the continuation accepts it. *)
Lemma star_class_greedy p fuel s caps k r :
  length s ≤ fuel →
  k (drop_while p s) caps = Some r →
  star_loop (run (Class p)) fuel s caps k = Some r.
Proof.
  revert s. induction fuel as [|fuel IH]; intros s Hlen Hk.
  - destruct s; simpl in *; [done|lia].
  - destruct s as [|c s]; simpl in *; [by rewrite Hk|].
    destruct (p c) eqn:Hc; [|by rewrite Hk].
    rewrite decide_True by lia. rewrite (IH s); [done|lia|done].
Qed.

(** When giving back a byte of the run can only fail, or leads to the same
    place, the repetition is the continuation after the longest run. *)
Lemma star_class_skip p fuel s caps k :
  length s ≤ fuel →
  (∀ c u, p c = true →
     k (c :: u) caps = None ∨ k (c :: u) caps = k (drop_while p (c :: u)) caps) →
  star_loop (run (Class p)) fuel s caps k = k (drop_while p s) caps.
Proof.
  intros Hlen Hk. revert s Hlen.
  induction fuel as [|fuel IH]; intros s Hlen.
  - destruct s; simpl in *; [done|lia].
  - destruct s as [|c s]; simpl in *; [done|].
    destruct (p c) eqn:Hc; [|done].
    rewrite decide_True by lia. rewrite IH by lia.
    destruct (k (drop_while p s) caps) eqn:Hg; simpl; [done|].
    destruct (Hk c s Hc) as [H|H]; [done|].
    rewrite H. simpl. by rewrite Hc.
Qed.

(** ** The bound on the rounds of a repetition *)

Lemma star_loop_local step fuel s caps k k' :
  local_step step →
  (∀ s' caps', length s' ≤ length s → k s' caps' = k' s' caps') →
  star_loop step fuel s caps k = star_loop step fuel s caps k'.
Proof.
  intros Hstep. revert s caps. induction fuel as [|fuel IH]; intros s caps Hk.
  - simpl. by apply Hk.
  - simpl. rewrite (Hk s caps) by done. f_equal.
    apply Hstep. intros s' caps' Hs'.
    destruct (decide (length s' < length s)); [|done].
    apply IH. intros s'' caps'' Hs''. apply Hk. lia.
Qed.

Lemma run_local r : local_step (run r).
Proof.
  induction r as [|c|p|r1 IH1 r2 IH2|r1 IH1 r2 IH2|r IH|r IH|r IH|i r IH];
    intros s caps k k' Hk; simpl.
  - by apply Hk.
  - destruct s as [|c' s]; [done|]. destruct (Ascii.eqb c c'); [|done].
    apply Hk. simpl. lia.
  - destruct s as [|c' s]; [done|]. destruct (p c'); [|done].
    apply Hk. simpl. lia.
  - apply IH1. intros s' caps' Hs'. apply IH2.
    intros s'' caps'' Hs''. apply Hk. lia.
  - by rewrite (IH1 s caps k k'), (IH2 s caps k k').
  - by apply star_loop_local.
  - apply IH. intros s' caps' Hs'. apply star_loop_local; [done|].
    intros s'' caps'' Hs''. apply Hk. lia.
  - by rewrite (IH s caps k k'), (Hk s caps).
  - apply IH. intros s' caps' Hs'. by apply Hk.
Qed.

(** A match is found by the continuation only. *)
Lemma star_loop_fails step fuel s caps :
  (∀ s caps, step s caps (λ _ _, None) = None) →
  local_step step →
  star_loop step fuel s caps (λ _ _, None) = None.
Proof.
  intros Hfail Hstep. revert s caps.
  induction fuel as [|fuel IH]; intros s caps; simpl; [done|].
  rewrite (Hstep s caps _ (λ _ _, None)); [by rewrite Hfail|].
  intros s' caps' _. destruct (decide _); [apply IH|done].
Qed.

Lemma run_fails r s caps : run r s caps (λ _ _, None) = None.
Proof.
  revert s caps.
  induction r as [|c|p|r1 IH1 r2 IH2|r1 IH1 r2 IH2|r IH|r IH|r IH|i r IH];
    intros s caps; simpl.
  - done.
  - destruct s as [|c' s]; [done|]. by destruct (Ascii.eqb c c').
  - destruct s as [|c' s]; [done|]. by destruct (p c').
  - rewrite (run_local r1 s caps _ (λ _ _, None)); [apply IH1|].
    intros s' caps' _. apply IH2.
  - by rewrite IH1, IH2.
  - apply star_loop_fails; [done|apply run_local].
  - rewrite (run_local r s caps _ (λ _ _, None)); [apply IH|].
    intros s' caps' _. apply star_loop_fails; [done|apply run_local].
  - by rewrite IH.
  - apply IH.
Qed.

(** More rounds than the input has bytes change nothing: the bound of
    [Star] and [Plus] cuts no match short. *)
Lemma star_loop_fuel r fuel s caps k :
  length s ≤ fuel →
  star_loop (run r) (S fuel) s caps k = star_loop (run r) fuel s caps k.
Proof.
  revert s caps. induction fuel as [|fuel IH]; intros s caps Hlen.
  - destruct s; [|simpl in Hlen; lia]. cbn [star_loop].
    rewrite (run_local r [] caps _ (λ _ _, None)); [by rewrite run_fails|].
    intros s' caps' _. destruct (decide _) as [H|]; [simpl in H; lia|done].
  - cbn [star_loop]. f_equal. apply run_local. intros s' caps' Hs'.
    destruct (decide (length s' < length s)) as [Hlt|]; [|done].
    apply (IH s' caps'). lia.
Qed.

(** ** The first pattern *)

Lemma head_not_token_drop_while u : head_not_token (drop_while is_token_char u).
Proof.
  induction u as [|c u IH]; simpl; [done|].
  destruct (is_token_char c) eqn:Hc; [done|]. simpl. done.
Qed.

(** A non-empty greedy run of token bytes, then a continuation that accepts
    whatever follows. *)
Lemma run_plus_token s caps k r :
  take_while is_token_char s ≠ [] →
  k (drop_while is_token_char s) caps = Some r →
  run (Plus (Class is_token_char)) s caps k = Some r.
Proof.
  intros Hv Hk. destruct s as [|c s]; simpl in *; [done|].
  destruct (is_token_char c); [|done].
  by apply star_class_greedy.
Qed.

Lemma run_plus_token_None s caps k :
  take_while is_token_char s = [] →
  run (Plus (Class is_token_char)) s caps k = None.
Proof.
  intros Hv. destruct s as [|c s]; simpl in *; [done|].
  by destruct (is_token_char c).
Qed.

Lemma strip_prefix_app p s t : strip_prefix p s = Some t → s = p ++ t.
Proof.
  revert s. induction p as [|a p IH]; intros s; simpl.
  - by intros [= ->].
  - destruct s as [|b s]; [done|].
    destruct (Ascii.eqb_spec a b) as [->|]; [|done].
    intros H. f_equal. by apply IH.
Qed.

Lemma strip_prefix_length p s t :
  strip_prefix p s = Some t → length s = length p + length t.
Proof. intros ->%strip_prefix_app. by rewrite length_app. Qed.

Lemma take_while_length_le p s : length (take_while p s) ≤ length s.
Proof. induction s as [|c s IH]; simpl; [lia|]. destruct (p c); simpl; lia. Qed.

Lemma drop_while_length_eq p s :
  length (drop_while p s) = length s - length (take_while p s).
Proof.
  rewrite <- (take_drop_while p s) at 2. rewrite length_app. lia.
Qed.

Lemma strip_prefix_snoc p a s :
  strip_prefix (p ++ [a]) s =
  match strip_prefix p s with
  | Some (c :: t) => if Ascii.eqb a c then Some t else None
  | _ => None
  end.
Proof.
  revert s. induction p as [|b p IH]; intros s; simpl.
  - destruct s as [|c s]; [done|]. by destruct (Ascii.eqb a c).
  - destruct s as [|c s]; [done|]. destruct (Ascii.eqb b c); [apply IH|done].
Qed.

Lemma token_step_refines s :
  replace_step TokenRegEx token_template s = token_step is_one_space s.
Proof.
  unfold replace_step, match_at, TokenRegEx, token_step.
  rewrite run_Seq, run_Str.
  change (chars "Token ") with (chars "Token" ++ [" "%char]).
  rewrite strip_prefix_snoc.
  destruct (strip_prefix (chars "Token") s) as [[|c t]|] eqn:Hp; [done| |done].
  unfold is_one_space. rewrite (Ascii.eqb_sym c).
  destruct (Ascii.eqb_spec " "%char c) as [<-|]; [|done].
  apply strip_prefix_length in Hp. simpl in Hp. rewrite run_Group.
  destruct (take_while is_token_char t) as [|v0 v] eqn:Hv.
  - by rewrite run_plus_token_None.
  - erewrite run_plus_token; [|by rewrite Hv|reflexivity].
    f_equal. f_equal.
    rewrite drop_while_length_eq, Hv, Hp.
    pose proof (take_while_length_le is_token_char t) as Hle.
    rewrite Hv in Hle. simpl in *. lia.
Qed.

(** ** The second pattern *)

Lemma drop_while_idemp p s : drop_while p (drop_while p s) = drop_while p s.
Proof.
  induction s as [|c s IH]; simpl; [done|].
  destruct (p c) eqn:Hc; [done|]. simpl. by rewrite Hc.
Qed.

Section separator_match.
Variable k : cont.
Hypothesis Hk : fails_off_token k.

Lemma run_opt_quote u caps :
  run (Opt (Class is_quote)) u caps k = k (drop_opt is_quote u) caps.
Proof.
  rewrite run_Opt. destruct u as [|c u]; simpl; [done|].
  destruct (is_quote c) eqn:Hc; [|done].
  rewrite (Hk (c :: u)); [apply or_else_None_r|].
  by apply quote_not_token.
Qed.

Lemma run_spaces_quote u caps :
  run (Seq (Star (Class is_space)) (Opt (Class is_quote))) u caps k =
  k (drop_opt is_quote (drop_while is_space u)) caps.
Proof.
  rewrite run_Seq, run_Star, star_class_skip; [apply run_opt_quote|done|].
  intros c v Hc. left. rewrite run_opt_quote. simpl.
  rewrite (space_not_quote c Hc). apply Hk. by apply space_not_token.
Qed.

Lemma run_equals_spaces_quote u caps :
  run (Seq (Opt (Chr "="))
           (Seq (Star (Class is_space)) (Opt (Class is_quote)))) u caps k =
  k (drop_opt is_quote (drop_while is_space (drop_opt is_equals u))) caps.
Proof.
  rewrite run_Seq, run_Opt, run_Chr. destruct u as [|c u].
  - cbn [or_else drop_opt]. apply run_spaces_quote.
  - cbn [drop_opt]. unfold is_equals at 1. rewrite (Ascii.eqb_sym c).
    destruct (Ascii.eqb "=" c) eqn:Hc.
    + rewrite !run_spaces_quote.
      assert (is_equals c = true) as He
        by (unfold is_equals; by rewrite Ascii.eqb_sym).
      cbn [drop_while]. rewrite (equals_not_space c He). cbn [drop_opt].
      rewrite (equals_not_quote c He).
      rewrite (Hk (c :: u)); [apply or_else_None_r|].
      by apply equals_not_token.
    + cbn [or_else]. apply run_spaces_quote.
Qed.

Lemma run_separator t caps :
  run (Seq (Star (Class is_space))
      (Seq (Opt (Chr "="))
      (Seq (Star (Class is_space)) (Opt (Class is_quote))))) t caps k =
  k (skip_sep t) caps.
Proof.
  rewrite run_Seq, run_Star, star_class_skip;
    [apply run_equals_spaces_quote|done|].
  intros c u Hc. rewrite !run_equals_spaces_quote.
  cbn [drop_opt]. rewrite (space_not_equals c Hc).
  cbn [drop_while]. rewrite Hc.
  destruct (drop_while is_space u) as [|d w] eqn:Hw.
  - right. done.
  - assert (is_space d = false) as Hd.
    { pose proof (drop_while_idemp is_space u) as Hi. rewrite Hw in Hi.
      simpl in Hi. destruct (is_space d); [|done].
      pose proof (drop_while_length is_space w) as Hl.
      rewrite Hi in Hl. simpl in Hl. lia. }
    destruct (is_equals d) eqn:He.
    + left. simpl. rewrite (equals_not_quote d He).
      apply Hk. by apply equals_not_token.
    + right. simpl. rewrite He. simpl. by rewrite Hd.
Qed.
End separator_match.

Lemma skip_sep_length t : length (skip_sep t) ≤ length t.
Proof.
  unfold skip_sep.
  pose proof (drop_while_length is_space t).
  pose proof (drop_opt_length is_equals (drop_while is_space t)).
  pose proof (drop_while_length is_space
                (drop_opt is_equals (drop_while is_space t))).
  pose proof (drop_opt_length is_quote
                (drop_while is_space
                   (drop_opt is_equals (drop_while is_space t)))).
  lia.
Qed.

(** The closing quote, as the last group. *)
Lemma run_closing_quote r caps :
  run (Group 4 (Opt (Class is_quote))) r caps (λ s' caps', Some (caps', s')) =
  Some (<[4 := take_opt is_quote r]> caps, drop_opt is_quote r).
Proof.
  rewrite run_Group, run_Opt. destruct r as [|c r]; [done|].
  cbn [run take_opt drop_opt]. destruct (is_quote c); cbn [or_else].
  - by replace (length (c :: r) - length r) with 1 by (simpl; lia).
  - by rewrite Nat.sub_diag.
Qed.

(** Value and closing quote. *)
Lemma run_value_quote r caps :
  run (Seq (Group 3 (Plus (Class is_token_char)))
           (Group 4 (Opt (Class is_quote)))) r caps
      (λ s' caps', Some (caps', s')) =
  match take_while is_token_char r with
  | [] => None
  | v =>
      Some (<[4 := take_opt is_quote (drop_while is_token_char r)]>
              (<[3 := v]> caps),
            drop_opt is_quote (drop_while is_token_char r))
  end.
Proof.
  rewrite run_Seq, run_Group.
  destruct (take_while is_token_char r) as [|v0 v] eqn:Hv.
  - by apply run_plus_token_None.
  - erewrite run_plus_token; [reflexivity|by rewrite Hv|].
    rewrite run_closing_quote. do 3 f_equal.
    rewrite drop_while_length_eq, <- Hv.
    pose proof (take_while_length_le is_token_char r).
    replace (length r - (length r - length (take_while is_token_char r)))
      with (length (take_while is_token_char r)) by lia.
    rewrite <- (take_drop_while is_token_char r) at 2.
    by rewrite take_app_length.
Qed.

Lemma value_fails_off_token (k : cont) :
  fails_off_token (λ s' caps',
    run (Seq (Group 3 (Plus (Class is_token_char)))
             (Group 4 (Opt (Class is_quote)))) s' caps' k).
Proof.
  intros u caps Hu. rewrite run_Seq, run_Group.
  apply run_plus_token_None. destruct u as [|c u]; simpl in *; [done|].
  by rewrite Hu.
Qed.

(** Separator, value and closing quote, after the flag. *)
Lemma run_after_flag t caps :
  run (Seq (Group 2 (Seq (Star (Class is_space))
                   (Seq (Opt (Chr "="))
                   (Seq (Star (Class is_space))
                        (Opt (Class is_quote))))))
      (Seq (Group 3 (Plus (Class is_token_char)))
           (Group 4 (Opt (Class is_quote))))) t caps
      (λ s' caps', Some (caps', s')) =
  let r := skip_sep t in
  match take_while is_token_char r with
  | [] => None
  | v =>
      Some (<[4 := take_opt is_quote (drop_while is_token_char r)]>
              (<[3 := v]>
                 (<[2 := take (length t - length r) t]> caps)),
            drop_opt is_quote (drop_while is_token_char r))
  end.
Proof.
  rewrite run_Seq, run_Group.
  rewrite (run_separator (λ s' caps',
    run (Seq (Group 3 (Plus (Class is_token_char)))
             (Group 4 (Opt (Class is_quote)))) s'
        (<[2 := take (length t - length s') t]> caps')
        (λ s'' caps'', Some (caps'', s'')))).
  - apply run_value_quote.
  - intros u caps' Hu. by apply value_fails_off_token.
Qed.

Lemma short_flag_not_long s t :
  strip_prefix short_flag s = Some t → strip_prefix long_flag s = None.
Proof.
  unfold short_flag, long_flag.
  destruct s as [|a [|b s]]; cbn [strip_prefix]; [done| |].
  - by destruct (Ascii.eqb "-"%char a).
  - destruct (Ascii.eqb "-"%char a); [|done].
    destruct (Ascii.eqb_spec "t"%char b) as [<-|]; [|done]. done.
Qed.

Lemma flag_step_refines s :
  replace_step TokenFlagRegEx flag_template s = flag_step s.
Proof.
  unfold replace_step, match_at, TokenFlagRegEx, flag_step, flag_at.
  rewrite run_Seq, run_Group, run_Alt, !run_Str.
  change (chars "-t") with short_flag. change (chars "--token") with long_flag.
  assert (∀ fl t, strip_prefix fl s = Some t →
    match
      run (Seq (Group 2 (Seq (Star (Class is_space))
                        (Seq (Opt (Chr "="))
                        (Seq (Star (Class is_space))
                             (Opt (Class is_quote))))))
          (Seq (Group 3 (Plus (Class is_token_char)))
               (Group 4 (Opt (Class is_quote))))) t
          (<[1 := take (length s - length t) s]> ∅)
          (λ s' caps', Some (caps', s'))
    with
    | Some (caps, rest) =>
        Some (expand flag_template caps, length s - length rest)
    | None => None
    end =
    (let t := drop (length fl) s in
     let r := skip_sep t in
     let sep := take (length t - length r) t in
     match take_while is_token_char r with
     | [] => None
     | v =>
         let q := take_opt is_quote (drop_while is_token_char r) in
         Some (fl ++ sep ++ REDACTED ++ q,
               length fl + length sep + length v + length q)
     end)) as Hflag.
  { intros fl t Hp. pose proof (strip_prefix_app _ _ _ Hp) as ->.
    rewrite run_after_flag. rewrite drop_app_length. cbv zeta.
    destruct (take_while is_token_char (skip_sep t)) as [|v0 v] eqn:Hv; [done|].
    f_equal. f_equal.
    - unfold expand, flag_template. cbn [fmap list_fmap expand_piece concat].
      rewrite lookup_insert_ne, lookup_insert_ne, lookup_insert_ne by done.
      rewrite lookup_insert_eq.
      rewrite lookup_insert_ne, lookup_insert_ne by done.
      rewrite lookup_insert_eq, lookup_insert_eq. cbn [default].
      rewrite length_app.
      replace (length fl + length t - length t) with (length fl) by lia.
      rewrite take_app_length. by rewrite app_nil_r.
    - pose proof (skip_sep_length t) as Hs.
      pose proof (take_drop_while is_token_char (skip_sep t)) as Hr.
      pose proof (take_drop_opt is_quote
                    (drop_while is_token_char (skip_sep t))) as Hq.
      rewrite Hv in Hr.
      apply (f_equal length) in Hr, Hq. rewrite length_app in Hr, Hq.
      rewrite length_take, length_app. lia. }
  destruct (strip_prefix short_flag s) as [t|] eqn:Hshort.
  - rewrite (short_flag_not_long s t Hshort), or_else_None_r.
    by apply Hflag.
  - cbn [or_else]. destruct (strip_prefix long_flag s) as [t|] eqn:Hlong.
    + by apply Hflag.
    + done.
Qed.

Lemma scan_ext step1 step2 skip s :
  (∀ u, step1 u = step2 u) → scan step1 skip s = scan step2 skip s.
Proof.
  intros Hstep. revert skip. induction s as [|c s IH]; intros skip; [done|].
  simpl. destruct skip; [|apply IH]. rewrite Hstep.
  destruct (step2 (c :: s)) as [[out [|n]]|]; by rewrite ?IH.
Qed.

(** The redaction of the source and the two direct passes agree. *)
Lemma filter_bytes_redact s : filter_bytes s = redact s.
Proof.
  unfold filter_bytes, redact, ReplaceAllString.
  rewrite (scan_ext _ _ _ s token_step_refines).
  apply scan_ext, flag_step_refines.
Qed.

(** ** The rewriting loop *)

Lemma scan_nil step skip : scan step skip [] = [].
Proof. done. Qed.

Lemma scan_skip step n s : scan step n s = scan step 0 (drop n s).
Proof.
  revert n. induction s as [|c s IH]; intros [|n]; try done.
  simpl. by rewrite IH.
Qed.

Lemma scan_None step c s :
  step (c :: s) = None → scan step 0 (c :: s) = c :: scan step 0 s.
Proof. intros H. simpl. by rewrite H. Qed.

Lemma scan_head step s : keeps_head step → head (scan step 0 s) = head s.
Proof.
  intros Hstep. destruct s as [|c s]; [done|]. simpl.
  destruct (step (c :: s)) as [[out n]|] eqn:H; [|done].
  destruct (Hstep _ _ _ H) as (Hn & Hout & Hhead).
  destruct n as [|n]; [lia|]. destruct out as [|o out]; [done|]. done.
Qed.

Lemma scan_Some step s out n :
  keeps_head step → step s = Some (out, n) →
  scan step 0 s = out ++ scan step 0 (drop n s).
Proof.
  intros Hstep H. destruct (Hstep _ _ _ H) as (Hn & Hout & Hhead).
  destruct s as [|c s]; [by destruct out|].
  destruct n as [|n]; [lia|]. simpl. rewrite H. by rewrite scan_skip.
Qed.

(** Induction along a rewriting pass. *)
Lemma scan_ind step (Hstep : keeps_head step) (P : list ascii → Prop) :
  P [] →
  (∀ c s, step (c :: s) = None → P s → P (c :: s)) →
  (∀ s out n, step s = Some (out, n) → P (drop n s) → P s) →
  ∀ s, P s.
Proof.
  intros Hnil Hnone Hsome s.
  remember (length s) as m eqn:Hm. revert s Hm.
  induction m as [m IH] using lt_wf_ind. intros s ->.
  destruct s as [|c s]; [done|].
  destruct (step (c :: s)) as [[out n]|] eqn:H.
  - destruct (Hstep _ _ _ H) as (Hn & _).
    apply (Hsome _ out n); [done|].
    apply (IH (length (drop n (c :: s)))); [|done].
    rewrite length_drop. simpl. lia.
  - apply Hnone; [done|]. apply (IH (length s)); [simpl; lia|done].
Qed.

(** ** The two passes, step by step *)

Lemma take_while_app_stop p v r :
  Forall (λ c, p c = true) v →
  match r with c :: _ => p c = false | [] => True end →
  take_while p (v ++ r) = v ∧ drop_while p (v ++ r) = r.
Proof.
  intros Hv Hr. induction Hv as [|c v Hc _ IH]; simpl.
  - destruct r as [|c r]; [done|]. simpl. by rewrite Hr.
  - rewrite Hc. destruct IH as [-> ->]. done.
Qed.

Lemma take_while_Forall p s : Forall (λ c, p c = true) (take_while p s).
Proof.
  induction s as [|c s IH]; simpl; [done|].
  destruct (p c) eqn:Hc; [|done]. by constructor.
Qed.

Lemma drop_while_stop p s :
  match drop_while p s with c :: _ => p c = false | [] => True end.
Proof.
  induction s as [|c s IH]; simpl; [done|].
  destruct (p c) eqn:Hc; [done|]. simpl. done.
Qed.

(** The shape of a match of the first pass. *)
Lemma token_step_Some s out n :
  token_step is_one_space s = Some (out, n) →
  ∃ v rest,
    s = token_word ++ v ++ rest ∧ out = token_word ++ REDACTED ∧
    n = 6 + length v ∧ v ≠ [] ∧
    Forall (λ c, is_token_char c = true) v ∧ head_not_token rest.
Proof.
  unfold token_step.
  destruct (strip_prefix (chars "Token") s) as [[|c t]|] eqn:Hp; [done| |done].
  unfold is_one_space. destruct (Ascii.eqb_spec c " "%char) as [->|]; [|done].
  destruct (take_while is_token_char t) as [|v0 v] eqn:Hv; [done|].
  intros [= <- <-]. exists (v0 :: v), (drop_while is_token_char t).
  apply strip_prefix_app in Hp. subst s.
  rewrite <- Hv, take_drop_while.
  split_and!; try done.
  - by rewrite Hv.
  - by rewrite Hv.
  - apply take_while_Forall.
  - apply head_not_token_drop_while.
Qed.

Lemma token_step_intro v rest :
  v ≠ [] → Forall (λ c, is_token_char c = true) v → head_not_token rest →
  token_step is_one_space (token_word ++ v ++ rest) =
  Some (token_word ++ REDACTED, 6 + length v).
Proof.
  intros Hne Hv Hrest. unfold token_step.
  cbn [strip_prefix token_word app chars list_ascii_of_string].
  rewrite !Ascii.eqb_refl. unfold is_one_space. rewrite Ascii.eqb_refl.
  destruct (take_while_app_stop is_token_char v rest Hv Hrest) as [-> _].
  destruct v; done.
Qed.

Lemma token_step_keeps_head : keeps_head (token_step is_one_space).
Proof.
  intros s out n (v & rest & -> & -> & -> & _)%token_step_Some.
  split_and!; [lia|done|done].
Qed.

(** ** The separator *)

Lemma drop_while_app_stop p x b X :
  p b = false → drop_while p (x ++ b :: X) = drop_while p x ++ b :: X.
Proof.
  intros Hb. induction x as [|c x IH]; simpl; [by rewrite Hb|].
  by destruct (p c).
Qed.

Lemma drop_opt_app_stop p x b X :
  p b = false → drop_opt p (x ++ b :: X) = drop_opt p x ++ b :: X.
Proof.
  intros Hb. destruct x as [|c x]; simpl; [by rewrite Hb|]. by destruct (p c).
Qed.

(** A token byte ends the separator, whatever comes after it. *)
Lemma skip_sep_app_token x b X :
  is_token_char b = true → skip_sep (x ++ b :: X) = skip_sep x ++ b :: X.
Proof.
  intros Hb. unfold skip_sep.
  rewrite (drop_while_app_stop is_space) by by apply token_not_space.
  rewrite (drop_opt_app_stop is_equals) by by apply token_not_equals.
  rewrite (drop_while_app_stop is_space) by by apply token_not_space.
  by rewrite (drop_opt_app_stop is_quote) by by apply token_not_quote.
Qed.

Lemma take_opt_Forall p s : Forall (λ c, p c = true) (take_opt p s).
Proof.
  destruct s as [|c s]; simpl; [done|]. destruct (p c) eqn:Hc; [|done].
  by repeat constructor.
Qed.

(** The separator is made of bytes that are not token bytes. *)
Lemma skip_sep_split t :
  ∃ sep, t = sep ++ skip_sep t ∧ Forall (λ c, is_token_char c = false) sep.
Proof.
  unfold skip_sep.
  set (t1 := drop_while is_space t).
  set (t2 := drop_opt is_equals t1).
  set (t3 := drop_while is_space t2).
  exists (take_while is_space t ++ take_opt is_equals t1
          ++ take_while is_space t2 ++ take_opt is_quote t3).
  split.
  - rewrite <- !app_assoc. rewrite (take_drop_opt is_quote t3).
    subst t3. rewrite take_drop_while. subst t2. rewrite take_drop_opt.
    subst t1. by rewrite take_drop_while.
  - rewrite !Forall_app. split_and!.
    + eapply Forall_impl; [apply take_while_Forall|]. apply space_not_token.
    + eapply Forall_impl; [apply take_opt_Forall|]. apply equals_not_token.
    + eapply Forall_impl; [apply take_while_Forall|]. apply space_not_token.
    + eapply Forall_impl; [apply take_opt_Forall|]. apply quote_not_token.
Qed.

(** ** The flag *)

Lemma flag_at_Some s fl :
  flag_at s = Some fl → is_flag fl ∧ ∃ t, s = fl ++ t.
Proof.
  unfold flag_at, is_flag.
  destruct (strip_prefix short_flag s) as [t|] eqn:Hs.
  - intros [= <-]. split; [by left|]. exists t. by apply strip_prefix_app.
  - destruct (strip_prefix long_flag s) as [t|] eqn:Hl; [|done].
    intros [= <-]. split; [by right|]. exists t. by apply strip_prefix_app.
Qed.

Lemma strip_prefix_refl p t : strip_prefix p (p ++ t) = Some t.
Proof. induction p as [|a p IH]; simpl; [done|]. by rewrite Ascii.eqb_refl. Qed.

Lemma flag_at_app fl t : is_flag fl → flag_at (fl ++ t) = Some fl.
Proof.
  unfold flag_at. intros [->| ->].
  - by rewrite strip_prefix_refl.
  - rewrite (strip_prefix_refl long_flag). done.
Qed.

(** A prefix that avoids the byte [b] cannot reach past [b]. *)
Lemma strip_prefix_before p x b X t :
  b ∉ p → strip_prefix p (x ++ b :: X) = Some t →
  ∃ x1, x = p ++ x1 ∧ t = x1 ++ b :: X.
Proof.
  revert x. induction p as [|a p IH]; intros x Hb; simpl.
  - intros [= <-]. by exists x.
  - apply not_elem_of_cons in Hb as [Hab Hb].
    destruct x as [|x0 x]; simpl.
    + destruct (Ascii.eqb_spec a b) as [->|]; done.
    + destruct (Ascii.eqb_spec a x0) as [->|]; [|done].
      intros (x1 & -> & ->)%IH; [|done]. by exists x1.
Qed.

Lemma flag_at_before x X fl :
  flag_at (x ++ "R"%char :: X) = Some fl → ∃ x1, x = fl ++ x1.
Proof.
  unfold flag_at.
  destruct (strip_prefix short_flag _) as [t|] eqn:Hs.
  - intros [= <-]. apply strip_prefix_before in Hs as (x1 & -> & _); [by exists x1|].
    unfold short_flag. rewrite !not_elem_of_cons. split_and!; try done.
    apply not_elem_of_nil.
  - destruct (strip_prefix long_flag _) as [t|] eqn:Hl; [|done].
    intros [= <-]. apply strip_prefix_before in Hl as (x1 & -> & _); [by exists x1|].
    unfold long_flag. rewrite !not_elem_of_cons. split_and!; try done.
    apply not_elem_of_nil.
Qed.

(** The second pass has a match exactly when a flag and its separator are
    followed by a token byte. *)
Lemma flag_step_None s :
  flag_step s = None ↔
  ∀ fl, flag_at s = Some fl →
        take_while is_token_char (skip_sep (drop (length fl) s)) = [].
Proof.
  unfold flag_step. destruct (flag_at s) as [fl|]; [|done].
  destruct (take_while is_token_char (skip_sep (drop (length fl) s))) eqn:Hv.
  - split; [|done]. by intros _ ? [= <-].
  - split; [done|]. intros H. specialize (H fl eq_refl). by rewrite Hv in H.
Qed.

Lemma take_while_nil_app p x b b' X X' :
  p b = true → p b' = true →
  take_while p (x ++ b :: X) = [] → take_while p (x ++ b' :: X') = [].
Proof.
  intros Hb Hb'. destruct x as [|c x]; simpl.
  - by rewrite Hb.
  - by destruct (p c).
Qed.

(** Whether a match starts before a token byte does not depend on which
    token byte it is, nor on what follows it. *)
Lemma flag_step_stable x b X X' :
  is_token_char b = true →
  flag_step (x ++ b :: X') = None →
  flag_step (x ++ "R"%char :: X) = None.
Proof.
  intros Hb. rewrite !flag_step_None. intros H fl Hfl.
  destruct (flag_at_before _ _ _ Hfl) as (x1 & ->).
  destruct (flag_at_Some _ _ Hfl) as [Hflag _].
  rewrite <- app_assoc in *.
  specialize (H fl (flag_at_app _ _ Hflag)).
  rewrite drop_app_length in *.
  rewrite skip_sep_app_token in * by done.
  by eapply take_while_nil_app; [..|apply H].
Qed.

(** The shape of a match of the second pass. *)
Lemma flag_step_Some s out n :
  flag_step s = Some (out, n) →
  ∃ fl sep v q rest,
    s = fl ++ sep ++ v ++ q ++ rest ∧
    out = fl ++ sep ++ REDACTED ++ q ∧
    n = length fl + length sep + length v + length q ∧
    is_flag fl ∧ skip_sep sep = [] ∧
    Forall (λ c, is_token_char c = false) sep ∧
    v ≠ [] ∧ Forall (λ c, is_token_char c = true) v ∧
    head_not_token (q ++ rest) ∧ take_opt is_quote (q ++ rest) = q.
Proof.
  unfold flag_step. destruct (flag_at s) as [fl|] eqn:Hfl; [|done].
  destruct (flag_at_Some _ _ Hfl) as (Hflag & t & ->).
  rewrite drop_app_length.
  destruct (skip_sep_split t) as (sep & Ht & Hsep).
  set (r := skip_sep t) in *.
  destruct (take_while is_token_char r) as [|v0 v] eqn:Hv; [done|].
  intros [= <- <-].
  pose proof (take_drop_while is_token_char r) as Hr.
  pose proof (take_drop_opt is_quote (drop_while is_token_char r)) as Hq.
  set (q := take_opt is_quote (drop_while is_token_char r)) in *.
  set (rest := drop_opt is_quote (drop_while is_token_char r)) in *.
  assert (take (length t - length r) t = sep) as Htake.
  { rewrite Ht at 1 2. rewrite length_app.
    replace (length sep + length r - length r) with (length sep) by lia.
    by rewrite take_app_length. }
  exists fl, sep, (v0 :: v), q, rest. rewrite Htake.
  assert (r = (v0 :: v) ++ q ++ rest) as Hr'.
  { by rewrite Hq, <- Hv, Hr. }
  split_and!; try done.
  - by rewrite <- Hr', <- Ht.
  - assert (skip_sep (sep ++ v0 :: (v ++ q ++ rest)) = v0 :: (v ++ q ++ rest)) as Hs.
    { change (v0 :: v ++ q ++ rest) with ((v0 :: v) ++ q ++ rest).
      by rewrite <- Hr', <- Ht. }
    rewrite skip_sep_app_token in Hs.
    + by apply (app_inv_tail _ _ []) in Hs.
    + pose proof (take_while_Forall is_token_char r) as Hall.
      rewrite Hv in Hall. by inversion Hall.
  - rewrite <- Hv. apply take_while_Forall.
  - rewrite Hq. apply head_not_token_drop_while.
  - by rewrite Hq.
Qed.

Lemma flag_step_intro fl sep v q rest :
  is_flag fl → skip_sep sep = [] →
  v ≠ [] → Forall (λ c, is_token_char c = true) v →
  head_not_token (q ++ rest) → take_opt is_quote (q ++ rest) = q →
  flag_step (fl ++ sep ++ v ++ q ++ rest) =
  Some (fl ++ sep ++ REDACTED ++ q,
        length fl + length sep + length v + length q).
Proof.
  intros Hflag Hsep Hne Hv Hhead Hq. unfold flag_step.
  rewrite flag_at_app by done. rewrite drop_app_length.
  destruct v as [|v0 v]; [done|].
  assert (skip_sep (sep ++ (v0 :: v) ++ q ++ rest) = (v0 :: v) ++ q ++ rest)
    as ->.
  { simpl. rewrite skip_sep_app_token, Hsep; [done|]. by inversion Hv. }
  destruct (take_while_app_stop is_token_char (v0 :: v) (q ++ rest))
    as [-> ->]; [done|done|].
  rewrite Hq. rewrite length_app.
  replace (length sep + length ((v0 :: v) ++ q ++ rest)
           - length ((v0 :: v) ++ q ++ rest)) with (length sep) by lia.
  by rewrite take_app_length.
Qed.

Lemma is_flag_length fl : is_flag fl → 0 < length fl ∧ head fl = Some "-"%char.
Proof. intros [->| ->]; simpl; split; (lia || done). Qed.

Lemma flag_step_keeps_head : keeps_head flag_step.
Proof.
  intros s out n
    (fl & sep & v & q & rest & -> & -> & -> & Hfl & _)%flag_step_Some.
  destruct (is_flag_length _ Hfl) as [Hlen Hhead].
  destruct fl as [|f fl]; [simpl in Hlen; lia|].
  split_and!; [simpl; lia|done|done].
Qed.

Lemma head_not_token_head a b :
  head a = head b → head_not_token a → head_not_token b.
Proof. destruct a, b; simpl; try done. by intros [= ->]. Qed.

Lemma take_opt_head p a b : head a = head b → take_opt p a = take_opt p b.
Proof. destruct a, b; simpl; try done. by intros [= ->]. Qed.

Lemma head_app_eq (q a b : list ascii) :
  head a = head b → head (q ++ a) = head (q ++ b).
Proof. by destruct q. Qed.

(** The first place where a pass changes its input is the first byte of a
    value, which becomes the first byte of REDACTED. *)
Lemma flag_pass_first_change t :
  flag_pass t = t ∨
  ∃ x b X' X, is_token_char b = true ∧
    t = x ++ b :: X' ∧ flag_pass t = x ++ "R"%char :: X.
Proof.
  induction t as [|c t Hnone IH|t out n Hstep _]
    using (scan_ind flag_step flag_step_keeps_head).
  - by left.
  - rewrite scan_None by done.
    destruct IH as [->|(x & b & X' & X & Hb & -> & ->)].
    + by left.
    + right. by exists (c :: x), b, X', X.
  - rewrite (scan_Some _ _ _ _ flag_step_keeps_head Hstep). right.
    apply flag_step_Some in Hstep
      as (fl & sep & v & q & rest & -> & -> & _ & _ & _ & _ & Hv & Htok & _).
    destruct v as [|v0 v]; [done|].
    exists (fl ++ sep), v0, (v ++ q ++ rest),
      (tail REDACTED ++ q ++ scan flag_step 0
         (drop n (fl ++ sep ++ (v0 :: v) ++ q ++ rest))).
    split_and!.
    + by inversion Htok.
    + by rewrite <- !app_assoc.
    + by rewrite <- !app_assoc.
Qed.

Lemma drop_app_length4 (a b c d rest : list ascii) :
  drop (length a + length b + length c + length d)
       (a ++ b ++ c ++ d ++ rest) = rest.
Proof.
  rewrite !app_assoc. rewrite <- !length_app. apply drop_app_length.
Qed.

(** The second pass is idempotent. *)
Lemma flag_pass_idemp t : flag_pass (flag_pass t) = flag_pass t.
Proof.
  induction t as [|c t Hnone IH|t out n Hstep IH]
    using (scan_ind flag_step flag_step_keeps_head).
  - done.
  - rewrite (scan_None _ c t) by done.
    assert (flag_step (c :: flag_pass t) = None) as Hnone'.
    { destruct (flag_pass_first_change t)
        as [->|(x & b & X' & X & Hb & Ht & ->)]; [done|].
      rewrite Ht in Hnone.
      by apply (flag_step_stable (c :: x) b X X'). }
    rewrite scan_None by done. by rewrite IH.
  - rewrite (scan_Some _ _ _ _ flag_step_keeps_head Hstep).
    apply flag_step_Some in Hstep
      as (fl & sep & v & q & rest & -> & -> & -> &
          Hfl & Hsep & Hnt & Hv & Htok & Hhead & Hq).
    rewrite drop_app_length4 in *.
    pose proof (scan_head flag_step rest flag_step_keeps_head) as Hh.
    rewrite <- !app_assoc.
    erewrite (scan_Some _ _ _ _ flag_step_keeps_head); last first.
    { apply (flag_step_intro fl sep REDACTED q (flag_pass rest));
        [done|done|done|by repeat constructor| |].
      - eapply head_not_token_head; [|apply Hhead]. by apply head_app_eq.
      - rewrite <- Hq at 2. apply take_opt_head. by apply head_app_eq. }
    rewrite drop_app_length4, IH. by rewrite <- !app_assoc.
Qed.

(** ** The first pass leaves nothing for itself *)

Lemma token_step_alt s :
  token_step is_one_space s =
  match strip_prefix token_word s with
  | Some t =>
      match take_while is_token_char t with
      | [] => None
      | v => Some (token_word ++ REDACTED, 6 + length v)
      end
  | None => None
  end.
Proof.
  unfold token_step. change token_word with (chars "Token" ++ [" "%char]).
  rewrite strip_prefix_snoc.
  destruct (strip_prefix (chars "Token") s) as [[|c t]|]; [done| |done].
  unfold is_one_space. rewrite (Ascii.eqb_sym c).
  by destruct (Ascii.eqb " "%char c).
Qed.

Lemma token_step_None s :
  token_step is_one_space s = None ↔
  ∀ t, strip_prefix token_word s = Some t → take_while is_token_char t = [].
Proof.
  rewrite token_step_alt. destruct (strip_prefix token_word s) as [t|]; [|done].
  destruct (take_while is_token_char t) eqn:Hv.
  - split; [|done]. by intros _ ? [= <-].
  - split; [done|]. intros H. specialize (H t eq_refl). congruence.
Qed.

Lemma token_step_stable x b X X' :
  is_token_char b = true →
  token_step is_one_space (x ++ b :: X') = None →
  token_step is_one_space (x ++ "R"%char :: X) = None.
Proof.
  intros Hb. rewrite !token_step_None. intros H t Ht.
  apply strip_prefix_before in Ht as (x1 & -> & ->).
  - rewrite <- app_assoc in H. specialize (H _ (strip_prefix_refl _ _)).
    by eapply take_while_nil_app; [..|apply H].
  - unfold token_word. rewrite !not_elem_of_cons. split_and!; try done.
    apply not_elem_of_nil.
Qed.

Lemma drop_app_length2 (a b rest : list ascii) n :
  n = length a + length b → drop n (a ++ b ++ rest) = rest.
Proof.
  intros ->. rewrite !app_assoc. rewrite <- !length_app. apply drop_app_length.
Qed.

Lemma token_pass_first_change t :
  token_pass t = t ∨
  ∃ x b X' X, is_token_char b = true ∧
    t = x ++ b :: X' ∧ token_pass t = x ++ "R"%char :: X.
Proof.
  induction t as [|c t Hnone IH|t out n Hstep _]
    using (scan_ind _ token_step_keeps_head).
  - by left.
  - rewrite scan_None by done.
    destruct IH as [->|(x & b & X' & X & Hb & -> & ->)].
    + by left.
    + right. by exists (c :: x), b, X', X.
  - rewrite (scan_Some _ _ _ _ token_step_keeps_head Hstep). right.
    apply token_step_Some in Hstep
      as (v & rest & -> & -> & _ & Hv & Htok & _).
    destruct v as [|v0 v]; [done|].
    exists token_word, v0, (v ++ rest),
      (tail REDACTED ++ scan (token_step is_one_space) 0
         (drop n (token_word ++ (v0 :: v) ++ rest))).
    split_and!; [by inversion Htok|done|by rewrite <- !app_assoc].
Qed.

Lemma clean_cons c u : settled (c :: u) → clean u → clean (c :: u).
Proof. intros Hs Hc [|i]; [done|apply Hc]. Qed.

Lemma clean_tail c u : clean (c :: u) → clean u.
Proof. intros Hc i. apply (Hc (S i)). Qed.

Lemma clean_head u : clean u → settled u.
Proof. intros Hc. apply (Hc 0). Qed.

Lemma clean_drop n u : clean u → clean (drop n u).
Proof. intros Hc i. rewrite drop_drop. apply Hc. Qed.

Lemma settled_other c u : c ≠ "T"%char → settled (c :: u).
Proof.
  intros Hc t. unfold token_word. cbn [strip_prefix].
  destruct (Ascii.eqb_spec "T"%char c) as [<-|]; done.
Qed.

Lemma clean_app_other x y :
  Forall (λ c, c ≠ "T"%char) x → clean y → clean (x ++ y).
Proof.
  intros Hx Hy. induction Hx as [|c x Hc _ IH]; [done|].
  simpl. apply clean_cons; [by apply settled_other|done].
Qed.

Lemma head_not_token_nil t : take_while is_token_char t = [] → head_not_token t.
Proof.
  destruct t as [|c t]; simpl; [done|]. by destruct (is_token_char c).
Qed.

Lemma token_step_None_settled u :
  token_step is_one_space u = None → settled u.
Proof.
  rewrite token_step_None. intros H t Ht. left.
  by apply head_not_token_nil, H.
Qed.

(** REDACTED, wherever it stands, starts no match of the first pass. *)
Lemma clean_REDACTED y : clean y → clean (REDACTED ++ y).
Proof.
  intros Hy. unfold REDACTED. cbn [app].
  do 5 (apply clean_cons; [by apply settled_other|]).
  apply clean_cons; [by intros t|].
  do 2 (apply clean_cons; [by apply settled_other|]). done.
Qed.

Lemma token_pass_clean s : clean (token_pass s).
Proof.
  induction s as [|c s Hnone IH|s out n Hstep IH]
    using (scan_ind _ token_step_keeps_head).
  - intros i. cbn [scan]. rewrite drop_nil. by intros t.
  - rewrite scan_None by done. apply clean_cons; [|done].
    apply token_step_None_settled.
    destruct (token_pass_first_change s)
      as [->|(x & b & X' & X & Hb & Hs & ->)]; [done|].
    rewrite Hs in Hnone. by apply (token_step_stable (c :: x) b X X').
  - rewrite (scan_Some _ _ _ _ token_step_keeps_head Hstep).
    apply token_step_Some in Hstep
      as (v & rest & -> & -> & -> & Hv & Htok & Hrest).
    rewrite drop_app_length2 in * by done.
    rewrite <- app_assoc. unfold token_word at 1. cbn [app].
    apply clean_cons.
    + intros t. change ("T"%char :: "o"%char :: "k"%char :: "e"%char
                        :: "n"%char :: " "%char :: REDACTED ++ token_pass rest)
        with (token_word ++ REDACTED ++ token_pass rest).
      rewrite strip_prefix_refl. intros [= <-]. right.
      exists (token_pass rest). split; [done|].
      eapply head_not_token_head; [|apply Hrest].
      symmetry. apply scan_head, token_step_keeps_head.
    + do 5 (apply clean_cons; [by apply settled_other|]).
      by apply clean_REDACTED.
Qed.

Lemma take_while_inj p (v v' r r' : list ascii) :
  Forall (λ c, p c = true) v → Forall (λ c, p c = true) v' →
  match r with c :: _ => p c = false | [] => True end →
  match r' with c :: _ => p c = false | [] => True end →
  v ++ r = v' ++ r' → v = v' ∧ r = r'.
Proof.
  intros Hv Hv' Hr Hr' Heq.
  destruct (take_while_app_stop p v r Hv Hr) as [H1 H2].
  destruct (take_while_app_stop p v' r' Hv' Hr') as [H1' H2'].
  rewrite Heq in H1, H2. split; congruence.
Qed.

(** A clean text is a fixed point of the first pass. *)
Lemma token_pass_fix t : clean t → token_pass t = t.
Proof.
  induction t as [|c t Hnone IH|t out n Hstep IH]
    using (scan_ind _ token_step_keeps_head); intros Hc.
  - done.
  - rewrite scan_None by done. f_equal. by apply IH, (clean_tail c).
  - rewrite (scan_Some _ _ _ _ token_step_keeps_head Hstep).
    rewrite IH by by apply clean_drop.
    apply token_step_Some in Hstep
      as (v & rest & -> & -> & -> & Hv & Htok & Hrest).
    rewrite drop_app_length2 by done.
    destruct (clean_head _ Hc (v ++ rest) (strip_prefix_refl _ _))
      as [Hh|(rest' & Heq & Hrest')].
    + destruct v as [|v0 v]; [done|]. simpl in Hh.
      inversion Htok; subst. congruence.
    + apply take_while_inj with (p := is_token_char) in Heq
        as [-> ->]; try done; try (by rewrite <- app_assoc).
      by repeat constructor.
Qed.

(** ** The second pass makes no work for the first *)

Lemma flag_step_head c u : c ≠ "-"%char → flag_step (c :: u) = None.
Proof.
  intros Hc. apply flag_step_None. intros fl Hfl.
  apply flag_at_Some in Hfl as (Hflag & t & Heq).
  destruct (is_flag_length _ Hflag) as [_ Hh].
  destruct fl as [|f fl]; [done|]. simpl in *. congruence.
Qed.

(** Text without a dash passes through the second pass unchanged. *)
Lemma flag_pass_app_other x w :
  Forall (λ c, c ≠ "-"%char) x → flag_pass (x ++ w) = x ++ flag_pass w.
Proof.
  intros Hx. induction Hx as [|c x Hc _ IH]; [done|].
  cbn [app]. rewrite scan_None by by apply flag_step_head. by rewrite IH.
Qed.

(** A dash-free prefix of the output of the second pass was there before. *)
Lemma flag_pass_prefix p u t :
  Forall (λ c, c ≠ "-"%char) p →
  strip_prefix p (flag_pass u) = Some t →
  ∃ w, u = p ++ w ∧ t = flag_pass w.
Proof.
  intros Hp. revert u. induction Hp as [|a p Ha _ IH]; intros u Hs.
  - simpl in Hs. injection Hs as <-. by exists u.
  - pose proof (scan_head flag_step u flag_step_keeps_head) as Hh.
    destruct (flag_pass u) as [|b y] eqn:Hy; [done|].
    destruct u as [|c u]; [done|]. simpl in Hh. injection Hh as ->.
    cbn [strip_prefix] in Hs.
    destruct (Ascii.eqb_spec a c) as [->|]; [|done].
    rewrite scan_None in Hy by by apply flag_step_head.
    injection Hy as <-.
    apply IH in Hs as (w & -> & ->). by exists w.
Qed.

Lemma flag_pass_settled u : settled u → settled (flag_pass u).
Proof.
  intros Hu t Ht.
  assert (Forall (λ c, c ≠ "-"%char) token_word) as Hw
    by (unfold token_word; repeat constructor; done).
  apply flag_pass_prefix in Ht as (w & -> & ->); [|done].
  pose proof (scan_head flag_step) as Hh.
  destruct (Hu w (strip_prefix_refl _ _)) as [Hn|(rest & -> & Hn)].
  - left. eapply head_not_token_head; [|apply Hn].
    symmetry. apply Hh, flag_step_keeps_head.
  - right. exists (flag_pass rest). split.
    + apply flag_pass_app_other. unfold REDACTED. repeat constructor; done.
    + eapply head_not_token_head; [|apply Hn].
      symmetry. apply Hh, flag_step_keeps_head.
Qed.

Lemma not_token_other c : is_token_char c = false → c ≠ "T"%char.
Proof. by intros H ->. Qed.

Lemma flag_pass_clean t : clean t → clean (flag_pass t).
Proof.
  induction t as [|c t Hnone IH|t out n Hstep IH]
    using (scan_ind _ flag_step_keeps_head); intros Hc.
  - done.
  - rewrite scan_None by done. apply clean_cons.
    + rewrite <- (scan_None flag_step c t) by done.
      by apply flag_pass_settled, clean_head.
    + by apply IH, (clean_tail c).
  - rewrite (scan_Some _ _ _ _ flag_step_keeps_head Hstep).
    specialize (IH (clean_drop _ _ Hc)).
    apply flag_step_Some in Hstep
      as (fl & sep & v & q & rest & -> & -> & -> &
          Hfl & Hsep & Hnt & Hv & Htok & Hhead & Hq).
    rewrite drop_app_length4 in *. rewrite <- !app_assoc.
    apply clean_app_other.
    { destruct Hfl as [->| ->]; repeat constructor; done. }
    apply clean_app_other.
    { eapply Forall_impl; [apply Hnt|]. apply not_token_other. }
    apply clean_REDACTED. apply clean_app_other; [|done].
    rewrite <- Hq. eapply Forall_impl; [apply take_opt_Forall|].
    intros c Hq'. by apply not_token_other, quote_not_token.
Qed.

(** The two passes together are idempotent. *)
Lemma redact_idemp s : redact (redact s) = redact s.
Proof.
  unfold redact.
  rewrite (token_pass_fix (flag_pass (token_pass s))).
  - apply flag_pass_idemp.
  - apply flag_pass_clean, token_pass_clean.
Qed.

Lemma filter_bytes_idemp s : filter_bytes (filter_bytes s) = filter_bytes s.
Proof. rewrite !filter_bytes_redact. apply redact_idemp. Qed.

(** ** The store *)

Lemma record_all_length (calls : list call) (l : LogEntries) :
  length (record_all calls l) = length l + length calls.
Proof. by rewrite record_all_app, length_app, length_fmap. Qed.


Lemma record_all_facts (calls : list call) (l : LogEntries) :
  record_all calls [] = entry_of_call <$> calls ∧
  length (record_all calls []) = length calls ∧
  (∀ i, record_all calls [] !! i = entry_of_call <$> calls !! i) ∧
  record_all calls l = l ++ record_all calls [].
Proof.
  rewrite !record_all_app. simpl. split_and!.
  - done.
  - by rewrite length_fmap.
  - intros i. by rewrite list_lookup_fmap.
  - done.
Qed.




(** ** The telemetry forwarder *)

Lemma skipped_false (entry : LogEntry) :
  skipped entry = false ↔
  ∃ ctx si, Context entry = Some ctx ∧
            ctx !! "AllowInstrumentation" = Some si ∧ si ≠ VBool false.
Proof.
  unfold skipped. split.
  - destruct (Context entry) as [ctx|]; [|done].
    destruct (ctx !! "AllowInstrumentation") as [si|] eqn:Hsi; [|done].
    intros H. exists ctx, si. split_and!; [done|done|]. by intros ->.
  - intros (ctx & si & -> & -> & Hne).
    destruct si as [[]| | | | |]; done.
Qed.

(** C1: the entry whose [AllowInstrumentation] value is not a boolean is
    not passed over; [instrument] emits its breadcrumb. *)
Theorem instrument_forwards_non_boolean :
  skipped marked_with_string = false ∧
  instrument [marked_with_string] "fastly" [] =
    ([AddBreadcrumb (command_breadcrumb "fastly");
      AddBreadcrumb (entry_breadcrumb marked_with_string);
      CaptureException (Some "lookup failed")], Completed).
Proof. split; reflexivity. Qed.

Lemma instrument_last (l : LogEntries) (cmd : string) (tel : telemetry) :
  instrument l cmd tel =
  match last l with
  | Some entry =>
      (foldl instrument_entry (tel ++ [AddBreadcrumb (command_breadcrumb cmd)]) l
         ++ [CaptureException (Err entry)], Completed)
  | None =>
      (tel ++ [AddBreadcrumb (command_breadcrumb cmd)],
       Panicked "index out of range [-1]")
  end.
Proof.
  unfold instrument. destruct (last l) eqn:Hl; [done|].
  apply last_None in Hl. by subst.
Qed.

(** Alone, [instrument] panics on the empty list. *)
Lemma instrument_nil_panics (cmd : string) (tel : telemetry) :
  snd (instrument [] cmd tel) = Panicked "index out of range [-1]".
Proof. reflexivity. Qed.

Section quiet.
Context {A B : Type}.

Lemma keeps_sentry_ret (a : A) : keeps_sentry (mret a : M A).
Proof. done. Qed.

Lemma keeps_sentry_bind (m : M A) (k : A → M B) :
  keeps_sentry m → (∀ a, keeps_sentry (k a)) → keeps_sentry (m ≫= k).
Proof.
  intros Hm Hk w. unfold mbind, M_bind. specialize (Hm w).
  destruct (m w) as [w' [a|err|msg]]; simpl in *; [|done..].
  by rewrite Hk.
Qed.

Lemma never_panics_ret (a : A) : never_panics (mret a : M A).
Proof. done. Qed.

Lemma never_panics_bind (m : M A) (k : A → M B) :
  never_panics m → (∀ a, never_panics (k a)) → never_panics (m ≫= k).
Proof.
  intros Hm Hk w. unfold mbind, M_bind. specialize (Hm w).
  destruct (m w) as [w' [a|err|msg]]; simpl in *; [|done..].
  apply Hk.
Qed.

Lemma keeps_sentry_wrap_error pre (m : M A) :
  keeps_sentry m → keeps_sentry (wrap_error pre m).
Proof.
  intros Hm w. unfold wrap_error. specialize (Hm w).
  by destruct (m w) as [w' [a|err|msg]].
Qed.

Lemma never_panics_wrap_error pre (m : M A) :
  never_panics m → never_panics (wrap_error pre m).
Proof.
  intros Hm w. unfold wrap_error. specialize (Hm w).
  by destruct (m w) as [w' [a|err|msg]].
Qed.

Lemma keeps_sentry_attempt (m : M A) :
  keeps_sentry m → keeps_sentry (attempt m).
Proof.
  intros Hm w. unfold attempt. specialize (Hm w).
  by destruct (m w) as [w' [a|err|msg]].
Qed.

Lemma never_panics_attempt (m : M A) :
  never_panics m → never_panics (attempt m).
Proof.
  intros Hm w. unfold attempt. specialize (Hm w).
  by destruct (m w) as [w' [a|err|msg]].
Qed.

Lemma keeps_sentry_defer (c : M unit) (m : M A) :
  keeps_sentry c → keeps_sentry m → keeps_sentry (defer c m).
Proof.
  intros Hc Hm w. unfold defer. specialize (Hm w).
  destruct (m w) as [w' r]. simpl in *. by rewrite Hc.
Qed.

Lemma never_panics_defer (c : M unit) (m : M A) :
  never_panics m → never_panics (defer c m).
Proof.
  intros Hm w. unfold defer. specialize (Hm w).
  by destruct (m w) as [w' r].
Qed.
End quiet.

Lemma OpenFile_quiet name : keeps_sentry (OpenFile name) ∧ never_panics (OpenFile name).
Proof. split; intros w; unfold OpenFile; by destruct (open_err _). Qed.

Lemma Create_quiet name : keeps_sentry (Create name) ∧ never_panics (Create name).
Proof. split; intros w; unfold Create; by destruct (create_err _). Qed.

Lemma Stat_quiet fd : keeps_sentry (Stat fd) ∧ never_panics (Stat fd).
Proof.
  split; intros w; unfold Stat; destruct (stat_err _); try done;
    by destruct (fds w !! fd).
Qed.

Lemma Close_quiet fd : keeps_sentry (Close fd) ∧ never_panics (Close fd).
Proof.
  split; intros w; unfold Close; destruct (fds w !! fd); try done;
    by destruct (close_err _).
Qed.

Lemma Write_quiet fd data : keeps_sentry (Write fd data) ∧ never_panics (Write fd data).
Proof.
  split; intros w; unfold Write; destruct (write_err _ _); try done;
    by destruct (fds w !! fd).
Qed.

Lemma write_pieces_quiet fd ps :
  keeps_sentry (write_pieces fd ps) ∧ never_panics (write_pieces fd ps).
Proof.
  induction ps as [|[s|] ps [IH1 IH2]]; simpl; [done| |done].
  split.
  - apply keeps_sentry_bind; [apply Write_quiet|done].
  - apply never_panics_bind; [apply Write_quiet|done].
Qed.

Lemma Execute_all_quiet tS fd l :
  keeps_sentry (Execute_all tS fd l) ∧ never_panics (Execute_all tS fd l).
Proof.
  induction l as [|e l [IH1 IH2]]; simpl; [done|].
  split.
  - apply keeps_sentry_bind; [apply write_pieces_quiet|done].
  - apply never_panics_bind; [apply write_pieces_quiet|done].
Qed.

Lemma rotate_quiet logPath f :
  keeps_sentry (rotate logPath f) ∧ never_panics (rotate logPath f).
Proof.
  unfold rotate. split.
  - apply keeps_sentry_bind; [apply keeps_sentry_attempt, Stat_quiet|].
    intros [size|]; [|done].
    apply keeps_sentry_bind; [done|]. intros threshold.
    destruct (decide _); [|done].
    apply keeps_sentry_bind; [apply Close_quiet|]. intros _.
    apply keeps_sentry_wrap_error, Create_quiet.
  - apply never_panics_bind; [apply never_panics_attempt, Stat_quiet|].
    intros [size|]; [|done].
    apply never_panics_bind; [done|]. intros threshold.
    destruct (decide _); [|done].
    apply never_panics_bind; [apply Close_quiet|]. intros _.
    apply never_panics_wrap_error, Create_quiet.
Qed.

Lemma write_log_quiet tS l logPath cmd :
  keeps_sentry (write_log tS l logPath cmd) ∧
  never_panics (write_log tS l logPath cmd).
Proof.
  unfold write_log. split.
  - apply keeps_sentry_bind; [apply keeps_sentry_wrap_error, OpenFile_quiet|].
    intros f. apply keeps_sentry_bind; [apply rotate_quiet|]. intros f'.
    apply keeps_sentry_defer; [apply Close_quiet|].
    apply keeps_sentry_bind; [apply Write_quiet|]. intros _.
    apply keeps_sentry_bind; [apply Execute_all_quiet|]. intros _.
    apply Write_quiet.
  - apply never_panics_bind; [apply never_panics_wrap_error, OpenFile_quiet|].
    intros f. apply never_panics_bind; [apply rotate_quiet|]. intros f'.
    apply never_panics_defer.
    apply never_panics_bind; [apply Write_quiet|]. intros _.
    apply never_panics_bind; [apply Execute_all_quiet|]. intros _.
    apply Write_quiet.
Qed.

Lemma Persist_unfold tS l logPath args :
  Persist tS l logPath args =
  if decide (length l = 0) then mret tt
  else do_instrument l ("fastly " +:+ Join args " ") ;;
       write_log tS l logPath ("fastly " +:+ Join args " ").
Proof. reflexivity. Qed.

(** C2: [Persist] never panics; with an empty list it captures nothing (the
    forwarder is not reached), and otherwise the telemetry receives the
    breadcrumbs and then, as the run's exception, the error of the last
    entry. *)
Theorem Persist_captures_last_error (tS : time → string) (l : LogEntries)
    (logPath : string) (args : list string) (w : world) :
  panics (snd (Persist tS l logPath args w)) = false ∧
  sentry (fst (Persist tS l logPath args w)) =
    match last l with
    | None => sentry w
    | Some entry =>
        foldl instrument_entry
          (sentry w ++ [AddBreadcrumb
                          (command_breadcrumb ("fastly " +:+ Join args " "))]) l
        ++ [CaptureException (Err entry)]
    end.
Proof.
  rewrite Persist_unfold. destruct (decide (length l = 0)) as [Hl|Hl].
  - apply nil_length_inv in Hl as ->. done.
  - destruct (last l) as [entry|] eqn:Hlast;
      [|apply last_None in Hlast; by subst].
    destruct (write_log_quiet tS l logPath ("fastly " +:+ Join args " "))
      as [Hs Hp].
    unfold mbind, M_bind, do_instrument. rewrite instrument_last, Hlast.
    split; [apply Hp|]. by rewrite Hs.
Qed.

(** ** Strings *)

Lemma append_nil_l (s : string) : "" +:+ s = s.
Proof. reflexivity. Qed.

Lemma append_cons (c : ascii) (s t : string) :
  String c s +:+ t = String c (s +:+ t).
Proof. reflexivity. Qed.

Lemma append_nil_r (s : string) : s +:+ "" = s.
Proof. induction s as [|c s IH]; [done|]. by rewrite append_cons, IH. Qed.

Lemma append_assoc (a b c : string) : (a +:+ b) +:+ c = a +:+ b +:+ c.
Proof. induction a as [|x a IH]; [done|]. by rewrite !append_cons, IH. Qed.

Lemma length_append (a b : string) :
  String.length (a +:+ b) = String.length a + String.length b.
Proof. induction a as [|x a IH]; [done|]. rewrite append_cons. simpl. by rewrite IH. Qed.

Lemma slice_to_length (s : string) : slice_to s (String.length s) = s.
Proof. induction s as [|c s IH]; [done|]. simpl. by rewrite IH. Qed.

Lemma slice_from_ge (s : string) (n : nat) :
  String.length s ≤ n → slice_from s n = "".
Proof.
  revert n. induction s as [|c s IH]; intros [|n] Hn; simpl in *; try done.
  - lia.
  - apply IH. lia.
Qed.

Lemma write_at_end (content data : string) :
  write_at content (String.length content) data = content +:+ data.
Proof.
  unfold write_at. rewrite slice_to_length, slice_from_ge by lia.
  by rewrite append_nil_r.
Qed.

Lemma concat_all_app (xs ys : list string) :
  concat_all (xs ++ ys) = concat_all xs +:+ concat_all ys.
Proof.
  induction xs as [|x xs IH]; [done|].
  unfold concat_all in *. simpl. by rewrite IH, append_assoc.
Qed.

Lemma concat_all_cons (x : string) (xs : list string) :
  concat_all (x :: xs) = x +:+ concat_all xs.
Proof. reflexivity. Qed.

(** ** Writing to the log file *)

Lemma Write_ready w w' fd path content data :
  ready w fd path content →
  Write fd data w = (w', Returned tt) →
  ready w' fd path (content +:+ data).
Proof.
  intros (f & Hfd & <- & Hfile & Hoff). unfold Write.
  destruct (write_err _ _); [done|]. rewrite Hfd, Hfile. simpl.
  intros [= <-]. eexists. simpl. rewrite !lookup_insert_eq.
  split_and!; [done|done| |].
  - f_equal. destruct Hoff as [->| ->]; [done|].
    destruct (of_append f); [done|]. apply write_at_end.
  - destruct Hoff as [->| ->]; [by left|]. right. simpl.
    by rewrite length_append.
Qed.

Lemma Write_succeeds w fd path content data :
  ready w fd path content → faults w = no_faults →
  ∃ w', Write fd data w = (w', Returned tt) ∧ faults w' = no_faults.
Proof.
  intros (f & Hfd & <- & Hfile & Hoff) Hq. unfold Write.
  rewrite Hq, Hfd. simpl. eexists. split; [done|]. done.
Qed.

Lemma pieces_text_cons (s : string) (ps : list (option string)) :
  pieces_text (Some s :: ps) = s +:+ pieces_text ps.
Proof. reflexivity. Qed.

Lemma write_pieces_ready w w' fd path content ps :
  ready w fd path content →
  write_pieces fd ps w = (w', Returned tt) →
  ready w' fd path (content +:+ pieces_text ps).
Proof.
  revert w content.
  induction ps as [|[s|] ps IH]; intros w content Hr; cbn [write_pieces].
  - intros [= <-]. unfold pieces_text. cbn. by rewrite append_nil_r.
  - unfold mbind, M_bind.
    destruct (Write fd s w) as [w1 [[]|err|msg]] eqn:Hw; [|done..].
    intros Hps. eapply IH in Hps; [|by eapply Write_ready].
    by rewrite pieces_text_cons, <- append_assoc.
  - done.
Qed.

Lemma write_pieces_succeeds w fd path content ps :
  ready w fd path content → faults w = no_faults →
  Forall is_Some ps →
  ∃ w', write_pieces fd ps w = (w', Returned tt) ∧ faults w' = no_faults.
Proof.
  intros Hr Hq Hps. revert w content Hr Hq.
  induction Hps as [|p ps [s ->] _ IH]; intros w content Hr Hq; simpl.
  - by eexists.
  - destruct (Write_succeeds w fd path content s Hr Hq) as (w1 & Hw & Hq1).
    unfold mbind, M_bind. rewrite Hw.
    eapply IH; [|done]. by eapply Write_ready.
Qed.

Lemma Execute_all_ready tS w w' fd path content l :
  ready w fd path content →
  Execute_all tS fd l w = (w', Returned tt) →
  ready w' fd path (content +:+ concat_all (record_text tS <$> l)).
Proof.
  revert w content.
  induction l as [|e l IH]; intros w content Hr; cbn [Execute_all].
  - intros [= <-]. cbn. by rewrite append_nil_r.
  - unfold mbind, M_bind, Execute.
    destruct (write_pieces fd _ w) as [w1 [[]|err|msg]] eqn:Hw; [|done..].
    intros Hl. eapply IH in Hl; [|by eapply write_pieces_ready].
    rewrite fmap_cons, concat_all_cons. by rewrite <- append_assoc.
Qed.

Lemma Execute_all_succeeds tS w fd path content l :
  ready w fd path content → faults w = no_faults →
  Forall (λ e, Forall is_Some (record_pieces tS e)) l →
  ∃ w', Execute_all tS fd l w = (w', Returned tt) ∧ faults w' = no_faults.
Proof.
  intros Hr Hq Hl. revert w content Hr Hq.
  induction Hl as [|e l He _ IH]; intros w content Hr Hq; simpl.
  - by eexists.
  - destruct (write_pieces_succeeds w fd path content _ Hr Hq He)
      as (w1 & Hw & Hq1).
    unfold mbind, M_bind, Execute. rewrite Hw.
    eapply IH; [|done]. by eapply write_pieces_ready.
Qed.

(** ** Opening and rotating *)

Lemma OpenFile_ready w w1 fd path :
  wrap_error errMsg (OpenFile path) w = (w1, Returned fd) →
  ready w1 fd path (default "" (files w !! path)) ∧ same_setting w w1.
Proof.
  unfold wrap_error, OpenFile. destruct (open_err _); [done|].
  intros [= <- <-]. split; [|done].
  eexists. simpl. rewrite lookup_insert_eq. split_and!; [done|done| |by left].
  destruct (files w !! path) eqn:Hf; [done|]. by rewrite lookup_insert_eq.
Qed.

Lemma OpenFile_succeeds w path :
  faults w = no_faults →
  ∃ w1 fd, wrap_error errMsg (OpenFile path) w = (w1, Returned fd) ∧
           faults w1 = no_faults.
Proof.
  intros Hq. unfold wrap_error, OpenFile. rewrite Hq. simpl.
  by eexists _, _.
Qed.

Lemma rotate_ready w w' fd fd' path old :
  ready w fd path old →
  rotate path fd w = (w', Returned fd') →
  ready w' fd' path
    match stat_err (faults w) with
    | None =>
        if decide (FileRotationSize w ≤ Z.of_nat (String.length old))%Z
        then "" else old
    | Some _ => old
    end.
Proof.
  intros Hr. pose proof Hr as (f & Hfd & Hpath & Hfile & Hoff).
  unfold rotate, mbind, M_bind, attempt, Stat.
  destruct (stat_err (faults w)); [by intros [= <- <-]|].
  rewrite Hfd, Hpath, Hfile. cbn [default].
  destruct (decide _) as [Hbig|Hsmall]; [|by intros [= <- <-]].
  unfold Close. rewrite Hfd. destruct (close_err (faults w)); [done|].
  unfold wrap_error, Create. cbn [faults with_files].
  destruct (create_err (faults w)); [done|].
  intros [= <- <-]. eexists. cbn. rewrite !lookup_insert_eq.
  split_and!; [done|done|done|by right].
Qed.

Lemma rotate_succeeds w fd path old :
  ready w fd path old → faults w = no_faults →
  ∃ w' fd', rotate path fd w = (w', Returned fd') ∧ faults w' = no_faults.
Proof.
  intros (f & Hfd & Hpath & Hfile & Hoff) Hq.
  unfold rotate, mbind, M_bind, attempt, Stat. rewrite Hq, Hfd. cbn.
  destruct (decide _); [|by eexists _, _].
  unfold Close. rewrite Hfd, Hq. cbn.
  unfold wrap_error, Create. cbn. rewrite Hq. cbn. by eexists _, _.
Qed.

Lemma Close_files fd w : files (fst (Close fd w)) = files w.
Proof.
  unfold Close. destruct (fds w !! fd); [|done]. by destruct (close_err _).
Qed.

(** ** What [Persist] leaves in the log file *)

Lemma write_log_content tS l path cmd w w' :
  write_log tS l path cmd w = (w', Returned tt) →
  files w' !! path = Some (kept_content w path +:+ log_text tS l cmd).
Proof.
  unfold write_log, mbind at 1, M_bind at 1.
  destruct (wrap_error errMsg (OpenFile path) w) as [w1 [fd|err|msg]] eqn:Ho;
    [|done..].
  apply OpenFile_ready in Ho as [Hr1 [Hf1 Ht1]].
  unfold mbind at 1, M_bind at 1.
  destruct (rotate path fd w1) as [w2 [fd'|err|msg]] eqn:Hrot; [|done..].
  eapply rotate_ready in Hrot; [|done]. rewrite Hf1, Ht1 in Hrot.
  fold (kept_content w path) in Hrot.
  unfold defer, mbind, M_bind.
  destruct (Write fd' _ w2) as [w3 [[]|err|msg]] eqn:Hw1;
    [|by intros [= _ ?]..].
  eapply Write_ready in Hw1; [|done].
  destruct (Execute_all tS fd' l w3) as [w4 [[]|err|msg]] eqn:He;
    [|by intros [= _ ?]..].
  eapply Execute_all_ready in He; [|done].
  destruct (Write fd' separator w4) as [w5 r] eqn:Hw2.
  intros [= <- ->]. eapply Write_ready in Hw2; [|done].
  rewrite Close_files. destruct Hw2 as (f & _ & _ & -> & _).
  f_equal. unfold log_text, command_header. by rewrite !append_assoc.
Qed.

Lemma write_log_succeeds tS l path cmd w :
  faults w = no_faults →
  Forall (λ e, Forall is_Some (record_pieces tS e)) l →
  ∃ w', write_log tS l path cmd w = (w', Returned tt).
Proof.
  intros Hq Hl. unfold write_log, mbind at 1, M_bind at 1.
  destruct (OpenFile_succeeds w path Hq) as (w1 & fd & Ho & Hq1).
  rewrite Ho. apply OpenFile_ready in Ho as [Hr1 _].
  unfold mbind at 1, M_bind at 1.
  destruct (rotate_succeeds w1 fd path _ Hr1 Hq1) as (w2 & fd' & Hrot & Hq2).
  rewrite Hrot. eapply rotate_ready in Hrot; [|done].
  unfold defer, mbind, M_bind.
  destruct (Write_succeeds w2 fd' path _ (command_header cmd) Hrot Hq2)
    as (w3 & Hw1 & Hq3).
  unfold command_header in Hw1. rewrite Hw1.
  eapply Write_ready in Hw1; [|done].
  destruct (Execute_all_succeeds tS w3 fd' path _ l Hw1 Hq3 Hl)
    as (w4 & He & Hq4).
  rewrite He. eapply Execute_all_ready in He; [|done].
  destruct (Write_succeeds w4 fd' path _ separator He Hq4) as (w5 & Hw2 & _).
  rewrite Hw2. by eexists.
Qed.

Lemma Persist_content tS l path args w w' :
  l ≠ [] →
  Persist tS l path args w = (w', Returned tt) →
  files w' !! path =
    Some (kept_content w path +:+ log_text tS l ("fastly " +:+ Join args " ")).
Proof.
  intros Hl. rewrite Persist_unfold.
  destruct (decide (length l = 0)) as [H0|_];
    [by apply nil_length_inv in H0|].
  unfold mbind at 1, M_bind at 1, do_instrument.
  destruct (instrument l _ (sentry w)) as [tel [|msg]]; [|done].
  intros H. apply write_log_content in H. by rewrite H.
Qed.

Lemma Persist_succeeds tS l path args w :
  faults w = no_faults →
  Forall (λ e, Forall is_Some (record_pieces tS e)) l →
  ∃ w', Persist tS l path args w = (w', Returned tt).
Proof.
  intros Hq Hl. rewrite Persist_unfold.
  destruct (decide (length l = 0)) as [H0|Hn]; [by eexists|].
  unfold mbind at 1, M_bind at 1, do_instrument.
  rewrite instrument_last. destruct (last l) eqn:Hlast.
  - by apply write_log_succeeds.
  - apply last_None in Hlast. by subst.
Qed.

(** ** The order of the keys *)

Global Instance key_le_trans : Transitive key_le.
Proof. intros a b c. unfold key_le. apply transitivity. Qed.

Global Instance key_le_total : Total key_le.
Proof. intros a b. unfold key_le. apply total, _. Qed.

Lemma sorted_pairs_elem_of (m : gomap) k v :
  (k, v) ∈ sorted_pairs m ↔ map_get m k = Some v.
Proof.
  destruct m as [g|]; simpl.
  - rewrite merge_sort_Permutation. apply elem_of_map_to_list.
  - split; [by intros ?%elem_of_nil|done].
Qed.

Lemma sorted_pairs_sorted (m : gomap) :
  StronglySorted key_le (sorted_pairs m).
Proof.
  destruct m as [g|]; simpl; [|constructor].
  apply StronglySorted_merge_sort; apply _.
Qed.


(** The order of the pairs is determined by the map alone. *)
Lemma sorted_pairs_unique (g : gmap string any) (ps : list (string * any)) :
  ps ≡ₚ map_to_list g → StronglySorted key_le ps →
  sorted_pairs (Some g) = ps.
Proof.
  intros Hperm Hsorted.
  apply (StronglySorted_unique_strong key_le);
    [|apply (sorted_pairs_sorted (Some g))|done|].
  - intros [k1 v1] [k2 v2] H1 H2 Hle Hge.
    assert (k1 = k2) as <- by (by apply (anti_symm String.le)).
    apply (sorted_pairs_elem_of (Some g)) in H1.
    rewrite Hperm in H2. apply elem_of_map_to_list in H2.
    simpl in H1. congruence.
  - simpl. by rewrite merge_sort_Permutation.
Qed.

Lemma sorted_pairs_FILE_LINE (file line : any) :
  sorted_pairs (Some (<["LINE" := line]> (<["FILE" := file]> ∅))) =
  [("FILE", file); ("LINE", line)].
Proof.
  apply sorted_pairs_unique.
  - rewrite map_to_list_insert by done.
    rewrite map_to_list_insert by done.
    rewrite map_to_list_empty. apply perm_swap.
  - repeat constructor.
Qed.

Lemma print_any_is_Some v : v ≠ VOpaque → is_Some (print_any v).
Proof. destruct v as [[]| | | | |]; simpl; eauto. by intros []. Qed.

Lemma pair_pieces_printable (a b c : string) (v : any) :
  v ≠ VOpaque → Forall is_Some [Some a; Some b; Some c; print_any v; Some nl].
Proof.
  intros Hv. repeat (apply Forall_cons; split); eauto using print_any_is_Some.
Qed.

Lemma printable_pieces tS entry :
  printable entry → Forall is_Some (record_pieces tS entry).
Proof.
  intros [Hcaller Hcontext]. unfold record_pieces.
  rewrite !Forall_app. split_and!.
  - repeat (apply Forall_cons; split); eauto.
  - apply Forall_concat, Forall_fmap, Forall_forall.
    intros [k v] Hkv. apply (proj1 (sorted_pairs_elem_of _ k v)) in Hkv.
    apply pair_pieces_printable. simpl. intros ->. by apply (Hcaller k).
  - repeat (apply Forall_cons; split); eauto.
  - apply Forall_concat, Forall_fmap, Forall_forall.
    intros [k v] Hkv. apply (proj1 (sorted_pairs_elem_of _ k v)) in Hkv.
    apply pair_pieces_printable. simpl. intros ->. by apply (Hcontext k).
  - repeat (apply Forall_cons; split); eauto.
Qed.

(** ** Persistence: main results *)

(** C4: [Persist] on an empty list returns nil at once and leaves the world
    as it is: no file is opened, created or written and nothing is sent to
    the telemetry. *)
Theorem Persist_empty (tS : time → string) (logPath : string)
    (args : list string) (w : world) :
  Persist tS [] logPath args w = (w, Returned tt).
Proof. reflexivity. Qed.

(** C3: when [Persist] on a non-empty list returns nil and the size of the
    log file could be read, the file holds only the newly written text if
    its size had reached [FileRotationSize] (5242880 bytes unless changed),
    and its former content followed by the new text otherwise; and
    [Persist] does return nil when no system call fails and every value
    can be printed. *)
Theorem Persist_rotates (tS : time → string) (l : LogEntries)
    (logPath : string) (args : list string) (w : world) :
  l ≠ [] → stat_err (faults w) = None →
  FileRotationSize_default = (5 * 1024 * 1024)%Z ∧
  (∀ w', Persist tS l logPath args w = (w', Returned tt) →
     let old := default "" (files w !! logPath) in
     let new := log_text tS l ("fastly " +:+ Join args " ") in
     files w' !! logPath =
       Some (if decide (FileRotationSize w ≤ Z.of_nat (String.length old))%Z
             then new else old +:+ new)) ∧
  (faults w = no_faults → Forall printable l →
     ∃ w', Persist tS l logPath args w = (w', Returned tt)).
Proof.
  intros Hl Hstat. split_and!; [done| |].
  - intros w' Hp. apply Persist_content in Hp; [|done].
    rewrite Hp. unfold kept_content. rewrite Hstat. cbv zeta.
    by destruct (decide _).
  - intros Hq Hprint. apply Persist_succeeds; [done|].
    eapply Forall_impl; [apply Hprint|]. intros e. apply printable_pieces.
Qed.

Lemma sample_entries_not_nil : sample_entries ≠ [].
Proof. vm_compute. discriminate. Qed.

Lemma Persist_rotates_witness :
  sample_entries ≠ [] ∧
  stat_err (faults (test_world "0123456789")) = None ∧
  files (fst (Persist itoa sample_entries sample_path sample_args
                (test_world "0123456789"))) !! sample_path =
    Some (log_text itoa sample_entries "fastly service describe") ∧
  files (fst (Persist itoa sample_entries sample_path sample_args
                (test_world "0123"))) !! sample_path =
    Some ("0123" +:+ log_text itoa sample_entries "fastly service describe").
Proof.
  split; [exact sample_entries_not_nil|]. split; [reflexivity|]. split.
  - destruct (Persist_rotates itoa sample_entries sample_path sample_args
                (test_world "0123456789") sample_entries_not_nil eq_refl)
      as (_ & H & _).
    apply H. vm_compute. reflexivity.
  - destruct (Persist_rotates itoa sample_entries sample_path sample_args
                (test_world "0123") sample_entries_not_nil eq_refl)
      as (_ & H & _).
    apply H. vm_compute. reflexivity.
Defined.

(** C7 (amended): when [Persist] on a non-empty list returns nil, what it
    has written after the content the file kept starts with a line feed,
    then the line COMMAND:, then the command line (the word fastly, a
    space, and the arguments joined by single spaces) and two line feeds;
    the records of the entries and the separator follow. *)
Theorem Persist_writes_header (tS : time → string) (l : LogEntries)
    (logPath : string) (args : list string) (w w' : world) :
  l ≠ [] →
  Persist tS l logPath args w = (w', Returned tt) →
  files w' !! logPath =
    Some (kept_content w logPath
          +:+ (nl +:+ "COMMAND:" +:+ nl
               +:+ ("fastly " +:+ String.concat " " args) +:+ nl +:+ nl)
          +:+ concat_all (record_text tS <$> l) +:+ separator).
Proof.
  intros Hl Hp. apply Persist_content in Hp; [|done]. rewrite Hp.
  unfold log_text, command_header, Join. by rewrite !append_assoc.
Qed.

Lemma Persist_writes_header_witness :
  sample_entries ≠ [] ∧
  files (fst (Persist itoa sample_entries sample_path sample_args
                fresh_world)) !! sample_path =
    Some (kept_content fresh_world sample_path
          +:+ (nl +:+ "COMMAND:" +:+ nl
               +:+ ("fastly " +:+ String.concat " " sample_args)
               +:+ nl +:+ nl)
          +:+ concat_all (record_text itoa <$> sample_entries) +:+ separator).
Proof.
  split; [exact sample_entries_not_nil|].
  apply Persist_writes_header; [exact sample_entries_not_nil|].
  vm_compute. reflexivity.
Defined.

(** C7 (as stated) fails: the first byte [Persist] writes is a line feed,
    not the C of COMMAND:. *)
Lemma header_starts_with_line_feed :
  snd (Persist itoa sample_entries sample_path sample_args fresh_world)
    = Returned tt ∧
  String.prefix
    ("COMMAND:" +:+ nl +:+ "fastly service describe" +:+ nl +:+ nl)
    (default "" (files (fst (Persist itoa sample_entries sample_path
                               sample_args fresh_world)) !! sample_path))
    = false.
Proof. split; vm_compute; reflexivity. Qed.

(** C8: N recording calls in sequence leave a store of exactly N entries,
    in the order of the calls, one entry for each call (none dropped, none
    merged); a store that already has entries keeps them in front,
    unchanged; and [Persist] writes the records in that same order. *)
Theorem records_keep_call_order (tS : time → string) (calls : list call)
    (l : LogEntries) (logPath : string) (args : list string) (w : world) :
  length (record_all calls []) = length calls ∧
  record_all calls [] = entry_of_call <$> calls ∧
  (∀ i, record_all calls [] !! i = entry_of_call <$> calls !! i) ∧
  record_all calls l = l ++ record_all calls [] ∧
  (∀ w', calls ≠ [] →
     Persist tS (record_all calls []) logPath args w = (w', Returned tt) →
     files w' !! logPath =
       Some (kept_content w logPath
             +:+ command_header ("fastly " +:+ Join args " ")
             +:+ concat_all
                   ((λ c, record_text tS (entry_of_call c)) <$> calls)
             +:+ separator)).
Proof.
  destruct (record_all_facts calls l) as (H1 & H2 & H3 & H4).
  split_and!; try done.
  intros w' Hcalls Hp. apply Persist_content in Hp.
  - rewrite Hp, H1. unfold log_text.
    by rewrite <- list_fmap_compose.
  - rewrite H1. by destruct calls.
Qed.

Lemma records_keep_call_order_witness :
  sample_calls ≠ [] ∧
  length (record_all sample_calls []) = 2 ∧
  files (fst (Persist itoa (record_all sample_calls []) sample_path
                sample_args fresh_world)) !! sample_path =
    Some (kept_content fresh_world sample_path
          +:+ command_header ("fastly " +:+ Join sample_args " ")
          +:+ concat_all
                ((λ c, record_text itoa (entry_of_call c)) <$> sample_calls)
          +:+ separator).
Proof.
  destruct (records_keep_call_order itoa sample_calls [] sample_path
              sample_args fresh_world) as (Hlen & _ & _ & _ & Hp).
  split; [discriminate|]. split; [exact Hlen|].
  apply Hp; [discriminate|]. vm_compute. reflexivity.
Defined.



(** ** Redaction: main results *)

Lemma scan_no_match step s :
  (∀ i, step (drop i s) = None) → scan step 0 s = s.
Proof.
  induction s as [|c s IH]; intros H; [done|].
  rewrite scan_None by apply (H 0). f_equal. apply IH.
  intros i. apply (H (S i)).
Qed.

Lemma replace_step_None r tpl s :
  match_at r s = None → replace_step r tpl s = None.
Proof. unfold replace_step. by intros ->. Qed.

(** C5 (amended): [FilterToken] is the composition of the two direct
    passes of [redact]: the first rewrites the word Token, one space and a
    token-shaped value to Token REDACTED; the second keeps a flag -t or
    --token, its separator and the closing quote and replaces the value by
    REDACTED; and an input in which neither pattern matches at any
    position is returned unchanged. *)
Theorem FilterToken_two_passes (input : string) :
  FilterToken input =
    string_of_list_ascii (redact (list_ascii_of_string input)) ∧
  ((∀ i, match_at TokenRegEx (drop i (list_ascii_of_string input)) = None) →
   (∀ i, match_at TokenFlagRegEx (drop i (list_ascii_of_string input)) = None) →
   FilterToken input = input).
Proof.
  unfold FilterToken. split; [by rewrite filter_bytes_redact|].
  intros H1 H2. unfold filter_bytes, ReplaceAllString.
  rewrite (scan_no_match _ (list_ascii_of_string input))
    by (intros i; apply replace_step_None, H1).
  rewrite scan_no_match by (intros i; apply replace_step_None, H2).
  apply string_of_list_ascii_of_string.
Qed.

Lemma FilterToken_two_passes_witness :
  (∀ i, match_at TokenRegEx (drop i (list_ascii_of_string "no secret")) = None) ∧
  (∀ i, match_at TokenFlagRegEx (drop i (list_ascii_of_string "no secret")) = None) ∧
  FilterToken "no secret" = "no secret".
Proof.
  assert (∀ r, (∀ i, i < 10 → match_at r (drop i (list_ascii_of_string "no secret")) = None) →
               ∀ i, match_at r (drop i (list_ascii_of_string "no secret")) = None) as Hall.
  { intros r H i. destruct (decide (i < 10)) as [Hi|Hi]; [by apply H|].
    rewrite drop_ge by (simpl; lia). apply (H 9). lia. }
  assert (∀ i, match_at TokenRegEx (drop i (list_ascii_of_string "no secret")) = None) as H1.
  { apply Hall. intros i Hi.
    do 10 (destruct i as [|i]; [vm_compute; reflexivity|]). lia. }
  assert (∀ i, match_at TokenFlagRegEx (drop i (list_ascii_of_string "no secret")) = None) as H2.
  { apply Hall. intros i Hi.
    do 10 (destruct i as [|i]; [vm_compute; reflexivity|]). lia. }
  split; [exact H1|]. split; [exact H2|].
  exact (proj2 (FilterToken_two_passes "no secret") H1 H2).
Defined.

(** C5 (as stated) fails: with a tabulation for the whitespace after the
    word Token, the passes as the specification words them redact the
    value and [FilterToken] does not. *)
Lemma tab_after_Token_not_redacted :
  FilterToken ("Token" +:+ String "009" "abc")
    = "Token" +:+ String "009" "abc" ∧
  string_of_list_ascii
    (redact_as_specified
       (list_ascii_of_string ("Token" +:+ String "009" "abc")))
    = "Token REDACTED" ∧
  FilterToken ("Token" +:+ String "009" "abc") ≠
  string_of_list_ascii
    (redact_as_specified
       (list_ascii_of_string ("Token" +:+ String "009" "abc"))).
Proof. split_and!; [vm_compute; reflexivity..|vm_compute; discriminate]. Qed.

(** C6: [FilterToken] is idempotent. *)
Theorem FilterToken_idempotent (s : string) :
  FilterToken (FilterToken s) = FilterToken s.
Proof.
  unfold FilterToken. rewrite list_ascii_of_string_of_list_ascii.
  by rewrite filter_bytes_idemp.
Qed.

(** * Further properties *)

(** ** The batch as one sequence of writes *)

Lemma write_pieces_app fd ps qs w :
  write_pieces fd (ps ++ qs) w =
  (write_pieces fd ps ;; write_pieces fd qs) w.
Proof.
  revert w. induction ps as [|[s|] ps IH]; intros w; cbn [app write_pieces].
  - done.
  - unfold mbind, M_bind. destruct (Write fd s w) as [w1 [[]|err|msg]]; [|done..].
    apply IH.
  - done.
Qed.

Lemma Execute_all_pieces tS fd l w :
  Execute_all tS fd l w = write_pieces fd (concat (record_pieces tS <$> l)) w.
Proof.
  revert w. induction l as [|e l IH]; intros w; [done|].
  cbn [Execute_all fmap list_fmap concat]. rewrite write_pieces_app.
  unfold mbind, M_bind, Execute.
  destruct (write_pieces fd (record_pieces tS e) w) as [w1 [[]|err|msg]];
    [|done..].
  apply IH.
Qed.

(** The three steps after the rotation are one sequence of writes. *)
Lemma write_batch_pieces tS fd l cmd w :
  (Write fd (command_header cmd) ;; Execute_all tS fd l ;; Write fd separator) w
  = write_pieces fd (batch_pieces tS l cmd) w.
Proof.
  unfold batch_pieces. cbn [write_pieces]. unfold mbind, M_bind.
  destruct (Write fd (command_header cmd) w) as [w1 [[]|err|msg]]; [|done..].
  rewrite write_pieces_app, Execute_all_pieces. unfold mbind, M_bind.
  destruct (write_pieces fd _ w1) as [w2 [[]|err|msg]]; [|done..].
  cbn [write_pieces]. unfold mbind, M_bind.
  by destruct (Write fd separator w2) as [w3 [[]|err|msg]].
Qed.

Lemma Write_outcome w fd path content data w' r :
  ready w fd path content →
  Write fd data w = (w', r) →
  confined w fd path w' ∧
  match r with
  | Returned _ => ready w' fd path (content +:+ data)
  | _ => ready w' fd path content
  end.
Proof.
  intros Hr Hw. pose proof Hr as (f & Hfd & Hpath & Hfile & Hoff).
  destruct r as [[]|err|msg].
  - split; [|by eapply Write_ready].
    unfold Write in Hw. destruct (write_err _ _); [done|].
    rewrite Hfd in Hw. injection Hw as <-. unfold confined. cbn.
    split_and!; try done.
    + intros p Hp. rewrite lookup_insert_ne; [done|congruence].
    + by rewrite delete_insert_eq.
  - unfold Write in Hw. destruct (write_err _ _).
    + injection Hw as <- _. split; [by unfold confined|]. by exists f.
    + by rewrite Hfd in Hw.
  - unfold Write in Hw. destruct (write_err _ _); [done|]. by rewrite Hfd in Hw.
Qed.

Lemma confined_refl w fd path : confined w fd path w.
Proof. by unfold confined. Qed.

Lemma confined_trans w0 w1 w2 fd path :
  confined w0 fd path w1 → confined w1 fd path w2 → confined w0 fd path w2.
Proof.
  intros (H1 & H2 & H3 & H4 & H5 & H6) (G1 & G2 & G3 & G4 & G5 & G6).
  unfold confined. split_and!; try congruence.
  intros p Hp. by rewrite G1, H1.
Qed.

(** Whatever its outcome, a sequence of writes leaves in the file the
    pieces written before it stopped. *)
Lemma write_pieces_outcome w fd path content ps w' r :
  ready w fd path content →
  write_pieces fd ps w = (w', r) →
  confined w fd path w' ∧
  ∃ k, k ≤ length ps ∧
       ready w' fd path (content +:+ pieces_text (take k ps)) ∧
       Forall is_Some (take k ps) ∧
       (r = Returned tt → k = length ps) ∧
       (∀ msg, r ≠ Panic msg).
Proof.
  revert w content. induction ps as [|[s|] ps IH]; intros w content Hr;
    cbn [write_pieces].
  - intros [= <- <-]. split; [apply confined_refl|]. exists 0.
    split_and!; try done. unfold pieces_text. cbn. by rewrite append_nil_r.
  - unfold mbind, M_bind.
    destruct (Write fd s w) as [w1 [[]|err|msg]] eqn:Hw;
      destruct (Write_outcome _ _ _ _ _ _ _ Hr Hw) as [Hc Hr1].
    + intros Hps. destruct (IH _ _ Hr1 Hps) as (Hc' & k & Hk & Hr' & Hall & Hret & Hp).
      split; [by eapply confined_trans|]. exists (S k).
      split_and!; [simpl; lia| |by constructor; eauto|intros ?; simpl; auto|done].
      cbn [take]. by rewrite pieces_text_cons, <- append_assoc.
    + intros [= <- <-]. split; [done|]. exists 0.
      split_and!; try done; [simpl; lia|].
      unfold pieces_text. cbn. by rewrite append_nil_r.
    + pose proof (proj2 (Write_quiet fd s) w) as Hp. by rewrite Hw in Hp.
  - intros [= <- <-]. split; [apply confined_refl|]. exists 0.
    split_and!; try done; [simpl; lia|].
    unfold pieces_text. cbn. by rewrite append_nil_r.
Qed.

(** The deferred [Close] after the writes. *)
Lemma deferred_writes_outcome tS l cmd w fd path base w' r :
  ready w fd path base →
  defer (Close fd)
    (Write fd (command_header cmd) ;; Execute_all tS fd l ;;
     Write fd separator) w = (w', r) →
  fds w' = delete fd (fds w) ∧ sentry w' = sentry w ∧
  (∀ p, p ≠ path → files w' !! p = files w !! p) ∧
  (∀ msg, r ≠ Panic msg) ∧
  ∃ k, k ≤ length (batch_pieces tS l cmd) ∧
       files w' !! path =
         Some (base +:+ pieces_text (take k (batch_pieces tS l cmd))) ∧
       Forall is_Some (take k (batch_pieces tS l cmd)) ∧
       (r = Returned tt → k = length (batch_pieces tS l cmd)).
Proof.
  intros Hr. unfold defer. rewrite write_batch_pieces.
  destruct (write_pieces fd _ w) as [wb rb] eqn:Hb. intros [= <- <-].
  destruct (write_pieces_outcome _ _ _ _ _ _ _ Hr Hb)
    as ((Hf & Hd & Hs & _) & k & Hk & Hr' & Hall & Hret & Hp).
  destruct Hr' as (f & Hfd & Hpath & Hfile & _).
  unfold Close. rewrite Hfd.
  destruct (close_err (faults wb)); cbn [fst with_files fds sentry files];
    (split_and!; [done|done|done|done|by exists k]).
Qed.

(** What [Persist] does after the call of [instrument], whatever its
    outcome. *)
Lemma write_log_outcome tS l path cmd w w' r :
  fresh_fds w →
  write_log tS l path cmd w = (w', r) →
  fds w' = fds w ∧ sentry w' = sentry w ∧
  (∀ p, p ≠ path → files w' !! p = files w !! p) ∧
  (∀ msg, r ≠ Panic msg) ∧
  match open_err (faults w) with
  | Some e => r = Failed (errMsg +:+ e) ∧ files w' = files w
  | None =>
      ∃ base k,
        files w' !! path =
          Some (base +:+ pieces_text (take k (batch_pieces tS l cmd))) ∧
        k ≤ length (batch_pieces tS l cmd) ∧
        Forall is_Some (take k (batch_pieces tS l cmd)) ∧
        (base = default "" (files w !! path) ∨ base = "") ∧
        (r = Returned tt → k = length (batch_pieces tS l cmd))
  end.
Proof.
  intros Hfresh. unfold write_log, mbind at 1, M_bind at 1.
  unfold wrap_error at 1, OpenFile.
  destruct (open_err (faults w)) as [e|] eqn:Hopen.
  { intros [= <- <-]. by split_and!. }
  set (fd := next_fd w).
  set (old := default "" (files w !! path)).
  set (w1 := {| files := _ |}).
  assert (fds w !! fd = None) as Hfd by (by apply Hfresh).
  assert (ready w1 fd path old) as Hr1.
  { eexists. cbn. rewrite lookup_insert_eq. split_and!; [done|done| |by left].
    unfold old. destruct (files w !! path) eqn:Hf; [done|].
    by rewrite lookup_insert_eq. }
  assert (∀ p, p ≠ path → files w1 !! p = files w !! p) as Hother1.
  { intros p Hp. cbn. destruct (files w !! path); [done|].
    by rewrite lookup_insert_ne. }
  assert (delete fd (fds w1) = fds w) as Hdel1.
  { cbn. by rewrite delete_insert_eq, delete_id. }
  unfold mbind at 1, M_bind at 1.
  destruct (rotate path fd w1) as [w2 [fd'|err|msg]] eqn:Hrot.
  - (* the writes take place *)
    assert ((w2 = w1 ∧ fd' = fd) ∨
            (ready w2 fd' path "" ∧ delete fd' (fds w2) = fds w ∧
             sentry w2 = sentry w ∧
             ∀ p, p ≠ path → files w2 !! p = files w !! p)) as Hcases.
    { revert Hrot. unfold rotate, mbind, M_bind, attempt, Stat.
      destruct (stat_err (faults w1)); [intros [= <- <-]; by left|].
      destruct Hr1 as (f & Hf1 & Hp1 & Hfile1 & _). rewrite Hf1.
      destruct (decide _); [|intros [= <- <-]; by left].
      unfold Close. rewrite Hf1. destruct (close_err (faults w1)); [done|].
      unfold wrap_error, Create. cbn [faults with_files].
      destruct (create_err (faults w1)); [done|].
      intros [= <- <-]. right. split_and!.
      - eexists. cbn. rewrite !lookup_insert_eq. by split_and!; [..|right].
      - cbn. rewrite delete_insert_eq. rewrite delete_insert_eq.
        rewrite delete_id; [by rewrite delete_id|].
        rewrite lookup_delete_ne by (unfold fd; lia).
        apply Hfresh. unfold fd. lia.
      - done.
      - intros p Hp. cbn. rewrite lookup_insert_ne by done. by apply Hother1. }
    intros Hd. destruct Hcases as [[-> ->]|(Hr2 & Hdel2 & Hs2 & Hother2)].
    + destruct (deferred_writes_outcome _ _ _ _ _ _ _ _ _ Hr1 Hd)
        as (Hfds & Hs & Hf & Hp & k & Hk & Hfile & Hall & Hret).
      split_and!; [by rewrite Hfds|by rewrite Hs| |done|].
      * intros p Hp'. rewrite Hf by done. by apply Hother1.
      * exists old, k. split_and!; try done. by left.
    + destruct (deferred_writes_outcome _ _ _ _ _ _ _ _ _ Hr2 Hd)
        as (Hfds & Hs & Hf & Hp & k & Hk & Hfile & Hall & Hret).
      split_and!; [by rewrite Hfds|by rewrite Hs| |done|].
      * intros p Hp'. rewrite Hf by done. by apply Hother2.
      * exists "", k. split_and!; try done. by right.
  - (* the rotation fails *)
    intros [= <- <-]. revert Hrot.
    unfold rotate, mbind, M_bind, attempt, Stat.
    destruct (stat_err (faults w1)); [done|].
    destruct Hr1 as (f & Hf1 & Hp1 & Hfile1 & _). rewrite Hf1.
    destruct (decide _); [|done].
    unfold Close. rewrite Hf1.
    assert (∀ e : result nat,
      let wc := fst (with_files w1 (files w1) (delete fd (fds w1)), e) in
      fds wc = fds w ∧ sentry wc = sentry w ∧
      (∀ p, p ≠ path → files wc !! p = files w !! p) ∧
      files wc !! path = Some old) as Hclosed.
    { intros e. cbn [fst with_files fds sentry files]. by rewrite Hdel1. }
    destruct (close_err (faults w1)).
    + intros [= <- <-].
      destruct (Hclosed (Failed "")) as (? & ? & ? & Hold).
      split_and!; try done. exists old, 0. unfold pieces_text. cbn.
      rewrite append_nil_r. split_and!; try done; [lia|by left].
    + unfold wrap_error, Create. cbn [faults with_files].
      destruct (create_err (faults w1)); [|done].
      intros [= <- <-].
      destruct (Hclosed (Failed "")) as (? & ? & ? & Hold).
      split_and!; try done. exists old, 0. unfold pieces_text. cbn.
      rewrite append_nil_r. split_and!; try done; [lia|by left].
  - pose proof (proj2 (rotate_quiet path fd) w1) as Hp.
    by rewrite Hrot in Hp.
Qed.

(** ** [Persist] on every path *)

(** The outcome of [Persist] on every path: the descriptors, the other
    files, and the content of the log file. *)
Lemma Persist_outcome tS l path args w w' r :
  fresh_fds w →
  Persist tS l path args w = (w', r) →
  fds w' = fds w ∧
  (∀ p, p ≠ path → files w' !! p = files w !! p) ∧
  (l ≠ [] →
   match open_err (faults w) with
   | Some e => r = Failed (errMsg +:+ e) ∧ files w' = files w
   | None =>
       ∃ base k,
         files w' !! path =
           Some (base +:+ pieces_text
                   (take k (batch_pieces tS l ("fastly " +:+ Join args " ")))) ∧
         k ≤ length (batch_pieces tS l ("fastly " +:+ Join args " ")) ∧
         Forall is_Some
           (take k (batch_pieces tS l ("fastly " +:+ Join args " "))) ∧
         (base = default "" (files w !! path) ∨ base = "") ∧
         (r = Returned tt →
          k = length (batch_pieces tS l ("fastly " +:+ Join args " ")))
   end).
Proof.
  intros Hfresh. rewrite Persist_unfold.
  destruct (decide (length l = 0)) as [H0|Hn].
  { intros [= <- <-]. apply nil_length_inv in H0. by split_and!. }
  unfold mbind at 1, M_bind at 1, do_instrument.
  rewrite instrument_last.
  destruct (last l) as [entry|] eqn:Hlast;
    [|apply last_None in Hlast; by subst].
  intros Hw. apply write_log_outcome in Hw as (H1 & H2 & H3 & H4 & H5);
    [|done].
  by split_and!.
Qed.

(** X1: whatever its outcome, [Persist] leaves the table of open
    descriptors as it found it: the descriptor it opens is closed again on
    every path, also when a call of the operating system fails. *)
Theorem Persist_releases_descriptors (tS : time → string) (l : LogEntries)
    (logPath : string) (args : list string) (w : world) :
  fresh_fds w →
  fds (fst (Persist tS l logPath args w)) = fds w.
Proof.
  intros Hfresh.
  destruct (Persist tS l logPath args w) as [w' r] eqn:Hp.
  by apply Persist_outcome in Hp as (? & _).
Qed.

Lemma fresh_fds_empty (w : world) : fds w = ∅ → fresh_fds w.
Proof. intros H fd _. by rewrite H. Qed.

Lemma Persist_releases_descriptors_witness :
  fresh_fds (faulty_world "0123456789"
               {| open_err := None; stat_err := None;
                  close_err := Some "input/output error";
                  create_err := None; write_err := λ _, None |}) ∧
  fds (fst (Persist itoa sample_entries sample_path sample_args
              (faulty_world "0123456789"
                 {| open_err := None; stat_err := None;
                    close_err := Some "input/output error";
                    create_err := None; write_err := λ _, None |}))) = ∅.
Proof.
  assert (fresh_fds (faulty_world "0123456789"
               {| open_err := None; stat_err := None;
                  close_err := Some "input/output error";
                  create_err := None; write_err := λ _, None |})) as H
    by (by apply fresh_fds_empty).
  split; [exact H|].
  exact (Persist_releases_descriptors itoa sample_entries sample_path
           sample_args _ H).
Defined.

(** X2: [Persist] changes no file other than the one at [logPath],
    whatever its outcome. *)
Theorem Persist_touches_one_file (tS : time → string) (l : LogEntries)
    (logPath : string) (args : list string) (w : world) (p : string) :
  fresh_fds w → p ≠ logPath →
  files (fst (Persist tS l logPath args w)) !! p = files w !! p.
Proof.
  intros Hfresh Hp.
  destruct (Persist tS l logPath args w) as [w' r] eqn:Hpersist.
  apply Persist_outcome in Hpersist as (_ & H & _); [|done]. by apply H.
Qed.

Lemma Persist_touches_one_file_witness :
  fresh_fds (test_world "0123456789") ∧
  "/etc/passwd" ≠ sample_path ∧
  files (fst (Persist itoa sample_entries sample_path sample_args
                (test_world "0123456789"))) !! "/etc/passwd" = None.
Proof.
  assert (fresh_fds (test_world "0123456789")) as H
    by (by apply fresh_fds_empty).
  assert ("/etc/passwd" ≠ sample_path) as Hne by discriminate.
  split; [exact H|]. split; [exact Hne|].
  exact (Persist_touches_one_file itoa sample_entries sample_path
           sample_args _ "/etc/passwd" H Hne).
Defined.

(** X3: when the log file cannot be opened, [Persist] returns the error
    of the operating system behind the prefix [errMsg], writes nothing and
    leaves files and descriptors as they are; the telemetry has been sent
    all the same, since [instrument] runs first. *)
Theorem Persist_open_failure (tS : time → string) (l : LogEntries)
    (logPath : string) (args : list string) (w : world) (e : string) :
  l ≠ [] → open_err (faults w) = Some e →
  snd (Persist tS l logPath args w) = Failed (errMsg +:+ e) ∧
  files (fst (Persist tS l logPath args w)) = files w ∧
  fds (fst (Persist tS l logPath args w)) = fds w ∧
  writes (fst (Persist tS l logPath args w)) = writes w ∧
  sentry (fst (Persist tS l logPath args w)) =
    fst (instrument l ("fastly " +:+ Join args " ") (sentry w)).
Proof.
  intros Hl Hopen.
  assert (Persist tS l logPath args w =
          ({| files := files w; fds := fds w; next_fd := next_fd w;
              writes := writes w;
              sentry := fst (instrument l ("fastly " +:+ Join args " ")
                               (sentry w));
              FileRotationSize := FileRotationSize w; faults := faults w |},
           Failed (errMsg +:+ e))) as ->; [|done].
  rewrite Persist_unfold.
  destruct (decide (length l = 0)) as [H0|_];
    [by apply nil_length_inv in H0|].
  unfold mbind at 1, M_bind at 1, do_instrument.
  rewrite instrument_last.
  destruct (last l) as [entry|] eqn:Hlast;
    [|apply last_None in Hlast; by subst].
  unfold write_log, mbind, M_bind, wrap_error, OpenFile. cbn [faults fst].
  by rewrite Hopen.
Qed.

Lemma Persist_open_failure_witness :
  sample_entries ≠ [] ∧
  snd (Persist itoa sample_entries sample_path sample_args
         (faulty_world ""
            {| open_err := Some "permission denied"; stat_err := None;
               close_err := None; create_err := None;
               write_err := λ _, None |}))
  = Failed "error accessing audit log file: permission denied".
Proof.
  split; [exact sample_entries_not_nil|].
  exact (proj1 (Persist_open_failure itoa sample_entries sample_path
                  sample_args
                  (faulty_world ""
                     {| open_err := Some "permission denied";
                        stat_err := None; close_err := None;
                        create_err := None; write_err := λ _, None |})
                  "permission denied" sample_entries_not_nil eq_refl)).
Defined.

(** X4: when the file has reached [FileRotationSize] and the rotation
    fails, [Persist] returns the error of [Close] as it is, or the error of
    [Create] behind the prefix [errMsg]; nothing is written and the old
    content of the log file is kept. *)
Theorem Persist_rotation_failure (tS : time → string) (l : LogEntries)
    (logPath : string) (args : list string) (w : world) (msg : string) :
  l ≠ [] →
  open_err (faults w) = None → stat_err (faults w) = None →
  (FileRotationSize w
   ≤ Z.of_nat (String.length (default "" (files w !! logPath))))%Z →
  rotation_error (faults w) = Some msg →
  snd (Persist tS l logPath args w) = Failed msg ∧
  files (fst (Persist tS l logPath args w)) !! logPath
    = Some (default "" (files w !! logPath)) ∧
  writes (fst (Persist tS l logPath args w)) = writes w.
Proof.
  intros Hl Hopen Hstat Hsize Hrot.
  destruct (Persist tS l logPath args w) as [w' r] eqn:Hp. cbn [fst snd].
  revert Hp. rewrite Persist_unfold.
  destruct (decide (length l = 0)) as [H0|_];
    [by apply nil_length_inv in H0|].
  unfold mbind at 1, M_bind at 1, do_instrument.
  rewrite instrument_last.
  destruct (last l) as [entry|] eqn:Hlast;
    [|apply last_None in Hlast; by subst].
  set (wi := {| files := files w |}).
  revert w' r.
  assert (∀ w' r, write_log tS l logPath ("fastly " +:+ Join args " ") wi
                  = (w', r) →
            r = Failed msg ∧
            files w' !! logPath = Some (default "" (files w !! logPath)) ∧
            writes w' = writes w) as Hlog.
  { intros w' r. unfold write_log, mbind at 1, M_bind at 1.
    unfold wrap_error at 1, OpenFile. cbn [faults wi]. rewrite Hopen.
    set (w1 := {| files := match files wi !! logPath with
                           | Some _ => _ | None => _ end |}).
    assert (files w1 !! logPath = Some (default "" (files w !! logPath)))
      as Hfile.
    { unfold w1, wi. cbn [files].
      destruct (files w !! logPath) as [c|] eqn:Hf; cbn [default];
        [exact Hf|apply lookup_insert_eq]. }
    unfold mbind at 1, M_bind at 1, rotate.
    unfold mbind at 1, M_bind at 1, attempt, Stat. cbn [faults w1].
    rewrite Hstat. cbn [fds w1]. rewrite lookup_insert_eq. cbn [of_path].
    rewrite Hfile. cbn [default FileRotationSize w1 wi].
    unfold mbind at 1, M_bind at 1.
    rewrite decide_True by done.
    unfold mbind at 1, M_bind at 1, Close. cbn [fds w1].
    rewrite lookup_insert_eq. cbn [faults w1 wi].
    unfold rotation_error in Hrot.
    destruct (close_err (faults w)) as [e|].
    - injection Hrot as <-. intros [= <- <-]. by split_and!.
    - unfold wrap_error, Create. cbn [faults with_files w1 wi].
      destruct (create_err (faults w)) as [e|]; [|done].
      injection Hrot as <-. intros [= <- <-]. by split_and!. }
  apply Hlog.
Qed.

Lemma Persist_rotation_failure_witness :
  sample_entries ≠ [] ∧
  snd (Persist itoa sample_entries sample_path sample_args
         (faulty_world "0123456789"
            {| open_err := None; stat_err := None; close_err := None;
               create_err := Some "disk quota exceeded";
               write_err := λ _, None |}))
    = Failed "error accessing audit log file: disk quota exceeded" ∧
  files (fst (Persist itoa sample_entries sample_path sample_args
         (faulty_world "0123456789"
            {| open_err := None; stat_err := None; close_err := None;
               create_err := Some "disk quota exceeded";
               write_err := λ _, None |}))) !! sample_path
    = Some "0123456789".
Proof.
  split; [exact sample_entries_not_nil|].
  destruct (Persist_rotation_failure itoa sample_entries sample_path
              sample_args
              (faulty_world "0123456789"
                 {| open_err := None; stat_err := None; close_err := None;
                    create_err := Some "disk quota exceeded";
                    write_err := λ _, None |})
              "error accessing audit log file: disk quota exceeded"
              sample_entries_not_nil eq_refl eq_refl)
    as (H1 & H2 & _).
  - vm_compute. discriminate.
  - reflexivity.
  - split; [exact H1|exact H2].
Defined.



(** The third write fails: the header and the first piece of the first
    record stay in the file, after the old content. *)
Example partial_write_example :
  Persist itoa sample_entries sample_path sample_args
    (faulty_world "0123" third_write_fails)
  = ({| files := {[ sample_path :=
                      "0123" +:+ nl +:+ "COMMAND:" +:+ nl
                      +:+ "fastly service describe" +:+ nl +:+ nl
                      +:+ "TIMESTAMP:" +:+ nl ]};
        fds := ∅; next_fd := 4; writes := 3;
        sentry :=
          fst (instrument sample_entries "fastly service describe" []);
        FileRotationSize := 8;
        faults := third_write_fails |},
     Failed "no space left on device").
Proof. vm_compute. reflexivity. Qed.

(** X6: when the size of the file cannot be read, the rotation is passed
    over: a successful [Persist] appends to the old content, whatever its
    size. *)
Theorem Persist_appends_without_size (tS : time → string) (l : LogEntries)
    (logPath : string) (args : list string) (w w' : world) (e : string) :
  l ≠ [] → stat_err (faults w) = Some e →
  Persist tS l logPath args w = (w', Returned tt) →
  files w' !! logPath =
    Some (default "" (files w !! logPath)
          +:+ log_text tS l ("fastly " +:+ Join args " ")).
Proof.
  intros Hl Hstat Hp. apply Persist_content in Hp; [|done].
  rewrite Hp. unfold kept_content. by rewrite Hstat.
Qed.

Lemma Persist_appends_without_size_witness :
  sample_entries ≠ [] ∧
  files (fst (Persist itoa sample_entries sample_path sample_args
                (faulty_world "0123456789"
                   {| open_err := None; stat_err := Some "bad file descriptor";
                      close_err := None; create_err := None;
                      write_err := λ _, None |}))) !! sample_path =
    Some ("0123456789"
          +:+ log_text itoa sample_entries "fastly service describe").
Proof.
  split; [exact sample_entries_not_nil|].
  apply (Persist_appends_without_size itoa sample_entries sample_path
           sample_args
           (faulty_world "0123456789"
              {| open_err := None; stat_err := Some "bad file descriptor";
                 close_err := None; create_err := None;
                 write_err := λ _, None |})
           _ "bad file descriptor" sample_entries_not_nil eq_refl).
  vm_compute. reflexivity.
Defined.

(** ** The setting is left alone *)

Section setting.
Context {A B : Type}.

Lemma keeps_setting_ret (a : A) : keeps_setting (mret a : M A).
Proof. done. Qed.

Lemma keeps_setting_bind (m : M A) (k : A → M B) :
  keeps_setting m → (∀ a, keeps_setting (k a)) → keeps_setting (m ≫= k).
Proof.
  intros Hm Hk w. unfold mbind, M_bind. specialize (Hm w).
  destruct (m w) as [w' [a|err|msg]]; simpl in *; [|done..].
  destruct (Hk a w') as [-> ->]. done.
Qed.

Lemma keeps_setting_wrap_error pre (m : M A) :
  keeps_setting m → keeps_setting (wrap_error pre m).
Proof.
  intros Hm w. unfold wrap_error. specialize (Hm w).
  by destruct (m w) as [w' [a|err|msg]].
Qed.

Lemma keeps_setting_attempt (m : M A) :
  keeps_setting m → keeps_setting (attempt m).
Proof.
  intros Hm w. unfold attempt. specialize (Hm w).
  by destruct (m w) as [w' [a|err|msg]].
Qed.

Lemma keeps_setting_defer (c : M unit) (m : M A) :
  keeps_setting c → keeps_setting m → keeps_setting (defer c m).
Proof.
  intros Hc Hm w. unfold defer. specialize (Hm w).
  destruct (m w) as [w' r]. simpl in *. destruct (Hc w') as [-> ->]. done.
Qed.
End setting.

Lemma OpenFile_setting name : keeps_setting (OpenFile name).
Proof. intros w. unfold OpenFile. by destruct (open_err _). Qed.

Lemma Create_setting name : keeps_setting (Create name).
Proof. intros w. unfold Create. by destruct (create_err _). Qed.

Lemma Stat_setting fd : keeps_setting (Stat fd).
Proof.
  intros w. unfold Stat. destruct (stat_err _); [done|].
  by destruct (fds w !! fd).
Qed.

Lemma Close_setting fd : keeps_setting (Close fd).
Proof.
  intros w. unfold Close. destruct (fds w !! fd); [|done].
  by destruct (close_err _).
Qed.

Lemma Write_setting fd data : keeps_setting (Write fd data).
Proof.
  intros w. unfold Write. destruct (write_err _ _); [done|].
  by destruct (fds w !! fd).
Qed.

Lemma write_pieces_setting fd ps : keeps_setting (write_pieces fd ps).
Proof.
  induction ps as [|[s|] ps IH]; cbn [write_pieces]; [done| |done].
  apply keeps_setting_bind; [apply Write_setting|done].
Qed.

Lemma Execute_all_setting tS fd l : keeps_setting (Execute_all tS fd l).
Proof.
  induction l as [|e l IH]; cbn [Execute_all]; [done|].
  apply keeps_setting_bind; [apply write_pieces_setting|done].
Qed.

Lemma rotate_setting logPath f : keeps_setting (rotate logPath f).
Proof.
  unfold rotate.
  apply keeps_setting_bind; [apply keeps_setting_attempt, Stat_setting|].
  intros [size|]; [|done].
  apply keeps_setting_bind; [done|]. intros threshold.
  destruct (decide _); [|done].
  apply keeps_setting_bind; [apply Close_setting|]. intros _.
  apply keeps_setting_wrap_error, Create_setting.
Qed.

Lemma do_instrument_setting l cmd : keeps_setting (do_instrument l cmd).
Proof.
  intros w. unfold do_instrument.
  destruct (instrument l cmd (sentry w)) as [tel [|msg]]; done.
Qed.

Lemma Persist_setting tS l logPath args :
  keeps_setting (Persist tS l logPath args).
Proof.
  rewrite Persist_unfold. destruct (decide _); [done|].
  apply keeps_setting_bind; [apply do_instrument_setting|]. intros _.
  unfold write_log.
  apply keeps_setting_bind; [apply keeps_setting_wrap_error, OpenFile_setting|].
  intros f. apply keeps_setting_bind; [apply rotate_setting|]. intros f'.
  apply keeps_setting_defer; [apply Close_setting|].
  apply keeps_setting_bind; [apply Write_setting|]. intros _.
  apply keeps_setting_bind; [apply Execute_all_setting|]. intros _.
  apply Write_setting.
Qed.

(** X7: two successful calls of [Persist] in a row: the second call finds
    what the first one left, and starts the file anew exactly when that
    content has reached [FileRotationSize]; otherwise the file holds the
    text of both calls, in order. *)
Theorem Persist_twice (tS : time → string) (l1 l2 : LogEntries)
    (logPath : string) (args1 args2 : list string) (w w1 w2 : world) :
  l1 ≠ [] → l2 ≠ [] → stat_err (faults w) = None →
  Persist tS l1 logPath args1 w = (w1, Returned tt) →
  Persist tS l2 logPath args2 w1 = (w2, Returned tt) →
  let first :=
    kept_content w logPath
    +:+ log_text tS l1 ("fastly " +:+ Join args1 " ") in
  files w2 !! logPath =
    Some ((if decide (FileRotationSize w
                      ≤ Z.of_nat (String.length first))%Z
           then "" else first)
          +:+ log_text tS l2 ("fastly " +:+ Join args2 " ")).
Proof.
  intros Hl1 Hl2 Hstat Hp1 Hp2.
  destruct (Persist_setting tS l1 logPath args1 w) as [Hf Ht].
  rewrite Hp1 in Hf, Ht. cbn [fst] in Hf, Ht.
  apply Persist_content in Hp1; [|done].
  apply Persist_content in Hp2; [|done].
  intros first. rewrite Hp2. do 2 f_equal.
  unfold kept_content at 1. rewrite Hf, Hstat, Ht, Hp1. done.
Qed.

Lemma Persist_twice_witness :
  sample_entries ≠ [] ∧
  files (fst (Persist itoa sample_entries sample_path ["b"]
                (fst (Persist itoa sample_entries sample_path ["a"]
                        (test_world "0123"))))) !! sample_path =
    Some (log_text itoa sample_entries "fastly b").
Proof.
  split; [exact sample_entries_not_nil|].
  apply (Persist_twice itoa sample_entries sample_entries sample_path
           ["a"] ["b"] (test_world "0123")
           (fst (Persist itoa sample_entries sample_path ["a"]
                   (test_world "0123")))
           (fst (Persist itoa sample_entries sample_path ["b"]
                (fst (Persist itoa sample_entries sample_path ["a"]
                        (test_world "0123")))))
           sample_entries_not_nil sample_entries_not_nil eq_refl).
  - vm_compute. reflexivity.
  - vm_compute. reflexivity.
Defined.

(** X8: after a successful [Persist], the log file is shorter than
    [FileRotationSize] (1 at least) plus the text of this call: the
    rotation bounds the growth of the file. *)
Theorem Persist_bounds_growth (tS : time → string) (l : LogEntries)
    (logPath : string) (args : list string) (w w' : world)
    (content : string) :
  l ≠ [] → stat_err (faults w) = None →
  Persist tS l logPath args w = (w', Returned tt) →
  files w' !! logPath = Some content →
  (Z.of_nat (String.length content)
   < Z.max 1 (FileRotationSize w)
     + Z.of_nat (String.length
                   (log_text tS l ("fastly " +:+ Join args " "))))%Z.
Proof.
  intros Hl Hstat Hp Hc. apply Persist_content in Hp; [|done].
  rewrite Hp in Hc. injection Hc as <-. unfold kept_content.
  rewrite Hstat. cbv zeta. rewrite length_append.
  destruct (decide _); simpl String.length; lia.
Qed.

Lemma Persist_bounds_growth_witness :
  sample_entries ≠ [] ∧
  (Z.of_nat (String.length
     (default "" (files (fst (Persist itoa sample_entries sample_path
                                sample_args (test_world "0123")))
                  !! sample_path)))
   < Z.max 1 8
     + Z.of_nat (String.length
                   (log_text itoa sample_entries
                      ("fastly " +:+ Join sample_args " "))))%Z.
Proof.
  split; [exact sample_entries_not_nil|].
  apply (Persist_bounds_growth itoa sample_entries sample_path sample_args
           (test_world "0123")
           (fst (Persist itoa sample_entries sample_path sample_args
                   (test_world "0123")))
           _ sample_entries_not_nil eq_refl).
  - vm_compute. reflexivity.
  - vm_compute. reflexivity.
Defined.

(** ** Entries as [createLogEntry] makes them *)

Lemma createLogEntry_fields st err :
  Time (createLogEntry st err) = site_now st ∧
  Err (createLogEntry st err) = err ∧
  Context (createLogEntry st err) = None ∧
  Caller (createLogEntry st err) =
    match site_frame st with
    | Some (file, line) =>
        Some (<["FILE" := VString (stored_file file)]>
                (<["LINE" := VInt line]> ∅))
    | None => None
    end.
Proof.
  unfold createLogEntry. by destruct (site_frame st) as [[file line]|].
Qed.

Lemma entry_of_call_fields c :
  Time (entry_of_call c) = site_now (call_site c) ∧
  Err (entry_of_call c) = call_err c ∧
  Context (entry_of_call c) = call_ctx c ∧
  Caller (entry_of_call c) = Caller (createLogEntry (call_site c) (call_err c)).
Proof.
  destruct c as [st err|st err ctx]; simpl.
  - destruct (createLogEntry_fields st err) as (-> & -> & -> & _). done.
  - destruct (createLogEntry_fields st err) as (-> & -> & _). done.
Qed.

Lemma createLogEntry_Caller_printable st err :
  printable_map (Caller (createLogEntry st err)).
Proof.
  intros k. destruct (createLogEntry_fields st err) as (_ & _ & _ & ->).
  destruct (site_frame st) as [[file line]|]; [|done]. simpl.
  destruct (decide (k = "FILE")) as [->|Hf].
  { by rewrite lookup_insert_eq. }
  rewrite lookup_insert_ne by done.
  destruct (decide (k = "LINE")) as [->|Hl].
  { by rewrite lookup_insert_eq. }
  by rewrite lookup_insert_ne.
Qed.

Lemma entry_of_call_printable c :
  printable_map (call_ctx c) → printable (entry_of_call c).
Proof.
  intros Hc. destruct (entry_of_call_fields c) as (_ & _ & Hctx & Hcaller).
  split.
  - rewrite Hcaller. apply createLogEntry_Caller_printable.
  - by rewrite Hctx.
Qed.

Lemma printable_map_nil : printable_map None.
Proof. done. Qed.

Lemma printable_map_empty : printable_map (Some ∅).
Proof. done. Qed.

Lemma printable_map_insert (k : string) (v : any) (m : gmap string any) :
  v ≠ VOpaque → printable_map (Some m) → printable_map (Some (<[k := v]> m)).
Proof.
  intros Hv Hm k'. simpl. destruct (decide (k' = k)) as [->|Hk].
  - rewrite lookup_insert_eq. congruence.
  - rewrite lookup_insert_ne by done. apply Hm.
Qed.

(** X9: a store built by calls of [Add] and [AddWithContext] is persisted
    with success when no call of the operating system fails and the
    contexts passed hold values that can be printed: what
    [createLogEntry] stores for the caller never stops the template. *)
Theorem recorded_store_persists (tS : time → string) (calls : list call)
    (logPath : string) (args : list string) (w : world) :
  faults w = no_faults →
  Forall (λ c, printable_map (call_ctx c)) calls →
  ∃ w', Persist tS (record_all calls []) logPath args w = (w', Returned tt).
Proof.
  intros Hq Hc. apply Persist_succeeds; [done|].
  destruct (record_all_facts calls []) as (-> & _).
  apply Forall_fmap. eapply Forall_impl; [exact Hc|].
  intros c Hp. simpl. by apply printable_pieces, entry_of_call_printable.
Qed.

Lemma recorded_store_persists_witness :
  ∃ w', Persist itoa (record_all sample_calls []) sample_path sample_args
          fresh_world = (w', Returned tt).
Proof.
  apply (recorded_store_persists itoa sample_calls sample_path sample_args
           fresh_world eq_refl).
  unfold sample_calls. repeat apply Forall_cons_2; [| |apply Forall_nil_2].
  - simpl. repeat apply printable_map_insert; try discriminate.
  - exact printable_map_nil.
Defined.

Lemma sorted_pairs_created st err :
  sorted_pairs (Caller (createLogEntry st err)) =
  match site_frame st with
  | Some (file, line) =>
      [("FILE", VString (stored_file file)); ("LINE", VInt line)]
  | None => []
  end.
Proof.
  destruct (createLogEntry_fields st err) as (_ & _ & _ & ->).
  destruct (site_frame st) as [[file line]|]; [|done].
  rewrite insert_insert_ne by done. apply sorted_pairs_FILE_LINE.
Qed.

(** X10: the record of an entry as [createLogEntry] makes it: the
    timestamp, the error ([<nil>] for the nil error), then the FILE and the
    LINE of the caller when the frame was recovered, and two line feeds for
    the empty context. *)
Theorem created_record_text (tS : time → string) (st : site) (err : error) :
  record_text tS (createLogEntry st err) =
  "TIMESTAMP:" +:+ nl +:+ tS (site_now st) +:+ nl +:+ nl
  +:+ "ERROR:" +:+ nl +:+ print_error err +:+ nl
  +:+ caller_text (site_frame st) +:+ nl +:+ nl.
Proof.
  unfold record_text, record_pieces. rewrite sorted_pairs_created.
  destruct (createLogEntry_fields st err) as (-> & -> & -> & _).
  destruct (site_frame st) as [[file line]|];
    unfold pieces_text, caller_text; simpl;
    rewrite ?append_assoc, ?append_nil_r; reflexivity.
Qed.

(** ** The stored path *)

Lemma substring_slices (s : string) (m n : nat) :
  substring m n s = slice_to (slice_from s m) n.
Proof.
  revert m n. induction s as [|c s IH]; intros [|m] [|n]; simpl; try done.
  rewrite IH. by destruct s.
Qed.

Lemma slices_append (s : string) (m : nat) :
  s = slice_to s m +:+ slice_from s m.
Proof.
  revert m. induction s as [|c s IH]; intros [|m]; simpl; try done.
  rewrite append_cons. f_equal. apply IH.
Qed.

Lemma slice_to_short (s : string) (m : nat) :
  String.length (slice_to s m) ≤ m.
Proof.
  revert m. induction s as [|c s IH]; intros [|m]; simpl; try lia.
  specialize (IH m). lia.
Qed.

(** X11: the FILE that [createLogEntry] stores is the file of the frame
    from its first [/pkg/] on, and the whole file when it has none; the
    LINE is the line of the frame. *)
Theorem createLogEntry_stores_path_from_pkg (st : site) (err : error)
    (file : string) (line : Z) :
  site_frame st = Some (file, line) →
  ∃ pre f,
    map_get (Caller (createLogEntry st err)) "FILE" = Some (VString f) ∧
    map_get (Caller (createLogEntry st err)) "LINE" = Some (VInt line) ∧
    file = pre +:+ f ∧
    (∀ m, m < String.length pre →
          slice_to (slice_from file m) 5 ≠ "/pkg/") ∧
    (slice_to f 5 = "/pkg/" ∨
     pre = "" ∧ ∀ m, slice_to (slice_from file m) 5 ≠ "/pkg/").
Proof.
  intros Hframe.
  destruct (createLogEntry_fields st err) as (_ & _ & _ & ->).
  rewrite Hframe. unfold stored_file, Index. simpl map_get.
  destruct (String.index 0 "/pkg/" file) as [i|] eqn:Hi.
  - exists (slice_to file i), (slice_from file i).
    replace (Z.of_nat i =? -1)%Z with false by (symmetry; apply Z.eqb_neq; lia).
    rewrite Nat2Z.id. split_and!.
    + by rewrite lookup_insert_eq.
    + by rewrite lookup_insert_ne, lookup_insert_eq.
    + apply slices_append.
    + intros m Hm. rewrite <- substring_slices.
      apply (index_correct2 0 i "/pkg/" file Hi); [lia|].
      pose proof (slice_to_short file i). lia.
    + left. rewrite <- substring_slices. apply (index_correct1 0 i "/pkg/" file Hi).
  - exists "", file. simpl. split_and!.
    + rewrite lookup_insert_eq. by destruct file.
    + by rewrite lookup_insert_ne, lookup_insert_eq.
    + done.
    + intros m Hm. lia.
    + right. split; [done|]. intros m. rewrite <- substring_slices.
      apply (index_correct3 0 m "/pkg/" file Hi); [done|lia].
Qed.

Lemma createLogEntry_stores_path_from_pkg_witness :
  ∃ pre f,
    map_get (Caller (createLogEntry sample_site None)) "FILE"
      = Some (VString f) ∧
    map_get (Caller (createLogEntry sample_site None)) "LINE"
      = Some (VInt 42) ∧
    "/home/u/cli/pkg/commands/service/describe.go" = pre +:+ f ∧
    (∀ m, m < String.length pre →
          slice_to (slice_from "/home/u/cli/pkg/commands/service/describe.go"
                      m) 5 ≠ "/pkg/") ∧
    (slice_to f 5 = "/pkg/" ∨
     pre = "" ∧
     ∀ m, slice_to (slice_from "/home/u/cli/pkg/commands/service/describe.go"
                      m) 5 ≠ "/pkg/").
Proof.
  apply (createLogEntry_stores_path_from_pkg sample_site None
           "/home/u/cli/pkg/commands/service/describe.go" 42).
  reflexivity.
Defined.

(** ** What the telemetry receives *)

Lemma foldl_instrument_entry (l : LogEntries) (tel : telemetry) :
  foldl instrument_entry tel l =
  tel ++ (AddBreadcrumb ∘ entry_breadcrumb
            <$> filter (λ e, skipped e = false) l).
Proof.
  revert tel. induction l as [|e l IH]; intros tel; simpl.
  { by rewrite app_nil_r. }
  rewrite IH. unfold instrument_entry. rewrite filter_cons.
  destruct (skipped e) eqn:He.
  - by rewrite decide_False by done.
  - rewrite decide_True by done. by rewrite <- app_assoc.
Qed.

(** X12: on a list that is not empty, [instrument] adds to the telemetry
    the breadcrumb of the command, then one breadcrumb for each entry that
    is not passed over, in the order of the list, then the exception of
    the last entry; what was sent before is kept. *)
Theorem instrument_sends_unskipped_in_order (l : LogEntries) (cmd : string)
    (tel : telemetry) (e : LogEntry) :
  last l = Some e →
  instrument l cmd tel =
    (tel ++ AddBreadcrumb (command_breadcrumb cmd)
         :: (AddBreadcrumb ∘ entry_breadcrumb
               <$> filter (λ e, skipped e = false) l)
         ++ [CaptureException (Err e)],
     Completed).
Proof.
  intros Hl. rewrite instrument_last, Hl, foldl_instrument_entry.
  by rewrite <- !app_assoc.
Qed.

Lemma instrument_sends_unskipped_in_order_witness :
  instrument sample_entries "fastly" [] =
    (AddBreadcrumb (command_breadcrumb "fastly")
       :: (AddBreadcrumb ∘ entry_breadcrumb
             <$> filter (λ e, skipped e = false) sample_entries)
       ++ [CaptureException (Some "not found")],
     Completed).
Proof.
  apply (instrument_sends_unskipped_in_order sample_entries "fastly" []
           (entry_of_call (CallAdd bare_site (Some "not found")))).
  reflexivity.
Defined.

(** X13: when no recording call has set [AllowInstrumentation] in its
    context, no entry gets a breadcrumb, and the error of the last call
    is captured all the same. *)
Theorem unmarked_errors_are_still_captured (calls : list call) (c : call)
    (cmd : string) (tel : telemetry) :
  Forall (λ c, map_get (call_ctx c) AllowInstrumentation = None) calls →
  last calls = Some c →
  instrument (record_all calls []) cmd tel =
    (tel ++ [AddBreadcrumb (command_breadcrumb cmd);
             CaptureException (call_err c)],
     Completed).
Proof.
  intros Hall Hlast. destruct (record_all_facts calls []) as (-> & _).
  rewrite instrument_last, fmap_last, Hlast. simpl.
  destruct (entry_of_call_fields c) as (_ & -> & _).
  rewrite foldl_instrument_entry.
  replace (filter _ _) with (@nil LogEntry); [by rewrite app_nil_r, <- app_assoc|].
  symmetry. clear Hlast. induction Hall as [|c' calls Hc _ IH]; [done|].
  rewrite fmap_cons, filter_cons, decide_False; [done|].
  unfold skipped. destruct (entry_of_call_fields c') as (_ & _ & -> & _).
  unfold map_get, AllowInstrumentation in Hc.
  destruct (call_ctx c') as [ctx|]; [|done]. by rewrite Hc.
Qed.

Lemma unmarked_errors_are_still_captured_witness :
  instrument
    (record_all [CallAdd sample_site (Some "first");
                 CallAddWithContext bare_site (Some "second")
                   (Some {[ "Service ID" := VString "abc" ]})] [])
    "fastly" [] =
  ([AddBreadcrumb (command_breadcrumb "fastly");
    CaptureException (Some "second")], Completed).
Proof.
  apply (unmarked_errors_are_still_captured
           [CallAdd sample_site (Some "first");
            CallAddWithContext bare_site (Some "second")
              (Some {[ "Service ID" := VString "abc" ]})]
           (CallAddWithContext bare_site (Some "second")
              (Some {[ "Service ID" := VString "abc" ]}))
           "fastly" []).
  - repeat apply Forall_cons_2; [reflexivity|reflexivity|apply Forall_nil_2].
  - reflexivity.
Defined.

(** ** The breadcrumb of a recorded entry *)

(** X14: the breadcrumb of a recorded entry reads back what the recording
    call stored: its message is the error ([unknown] for the nil error)
    with the stored file and line (empty and 0 when the frame was not
    recovered), its data the context of the call, its timestamp the time
    of the call. *)
Theorem recorded_entry_breadcrumb (c : call) :
  let b := entry_breadcrumb (entry_of_call c) in
  Message b =
    default "unknown" (call_err c) +:+ " (file: " +:+ site_file (call_site c)
    +:+ ", line: " +:+ itoa (site_line (call_site c)) +:+ ")" ∧
  Data b = call_ctx c ∧
  Timestamp b = site_now (call_site c) ∧
  Type_ b = "error".
Proof.
  destruct (entry_of_call_fields c) as (Ht & He & Hc & Hcaller).
  destruct (createLogEntry_fields (call_site c) (call_err c))
    as (_ & _ & _ & Hcreated).
  unfold entry_breadcrumb, site_file, site_line. cbn [Message Data Timestamp Type_].
  rewrite Ht, He, Hc, Hcaller, Hcreated. split_and!; try done.
  destruct (site_frame (call_site c)) as [[file line]|]; simpl.
  - rewrite lookup_insert_eq, lookup_insert_ne, lookup_insert_eq by done.
    by destruct (call_err c).
  - by destruct (call_err c).
Qed.

Lemma chars_append (a b : string) :
  list_ascii_of_string (a +:+ b)
  = list_ascii_of_string a ++ list_ascii_of_string b.
Proof.
  induction a as [|x a IH]; [done|]. rewrite append_cons. simpl. by rewrite IH.
Qed.

Lemma take_while_app_all (p : ascii → bool) (u v : list ascii) (c : ascii) :
  Forall (λ x, p x = true) u → p c = false →
  take_while p (u ++ c :: v) = u.
Proof.
  intros Hu Hc. induction Hu as [|x u Hx _ IH]; simpl.
  - by rewrite Hc.
  - by rewrite Hx, IH.
Qed.

Lemma take_while_all (p : ascii → bool) (u : list ascii) :
  Forall (λ x, p x = true) u → take_while p u = u.
Proof.
  intros Hu. induction Hu as [|x u Hx _ IH]; simpl; [done|].
  by rewrite Hx, IH.
Qed.

Lemma filepath_Base_last (dir base : string) (x : ascii) (rest : string) :
  base = String x rest →
  Forall (λ c, is_slash c = false) (list_ascii_of_string base) →
  filepath_Base (dir +:+ "/" +:+ base) = base.
Proof.
  intros Hbase Hplain.
  assert (∃ y u, rev (list_ascii_of_string base) = y :: u) as (y & u & Hrev).
  { destruct (rev (list_ascii_of_string base)) as [|y u] eqn:Hr; [|by eauto].
    apply (f_equal (@rev ascii)) in Hr. rewrite rev_involutive in Hr.
    by rewrite Hbase in Hr. }
  assert (Forall (λ c, is_slash c = false) (y :: u)) as Hyu.
  { rewrite <- Hrev. by apply List.Forall_rev. }
  unfold filepath_Base.
  destruct (dir +:+ "/" +:+ base) as [|z t] eqn:Hpath.
  { apply (f_equal String.length) in Hpath.
    rewrite !length_append in Hpath. simpl in Hpath. lia. }
  rewrite <- Hpath, !chars_append, !rev_app_distr, Hrev.
  pose proof (List.Forall_inv Hyu) as Hy. simpl in Hy.
  change (rev (list_ascii_of_string "/")) with ["/"%char].
  rewrite <- app_assoc.
  change ((y :: u) ++ ["/"%char] ++ rev (list_ascii_of_string dir))
    with (y :: (u ++ "/"%char :: rev (list_ascii_of_string dir))).
  cbn [drop_while]. rewrite Hy.
  change (y :: (u ++ "/"%char :: rev (list_ascii_of_string dir)))
    with ((y :: u) ++ "/"%char :: rev (list_ascii_of_string dir)).
  rewrite (take_while_app_all (λ c, negb (is_slash c)) (y :: u)
             (rev (list_ascii_of_string dir)) "/"%char).
  - change (string_of_list_ascii (rev (y :: u)) = base).
    rewrite <- Hrev, rev_involutive. apply string_of_list_ascii_of_string.
  - eapply Forall_impl; [exact Hyu|]. simpl. by intros c ->.
  - done.
Qed.

Lemma index_after_plain (name : string) :
  Forall (λ c, c ≠ "."%char) (list_ascii_of_string name) →
  String.index 0 ".go" (name +:+ ".go") = Some (String.length name).
Proof.
  induction name as [|c name IH]; intros Hp; [done|].
  apply Forall_cons_1 in Hp as [Hc Hp].
  rewrite append_cons. cbn [String.index String.prefix].
  destruct (ascii_dec "." c) as [Heq|_]; [by symmetry in Heq|].
  by rewrite (IH Hp).
Qed.

Lemma slice_to_append (a b : string) : slice_to (a +:+ b) (String.length a) = a.
Proof.
  induction a as [|c a IH]; [by destruct b|].
  rewrite append_cons. simpl. by rewrite IH.
Qed.

(** X15: when the FILE of an entry is a Go file in a directory and the
    name of the file has neither a slash nor a dot, the category of its
    breadcrumb is that name, without directory and extension. *)
Theorem breadcrumb_category_is_file_name (entry : LogEntry)
    (dir name : string) :
  map_get (Caller entry) "FILE"
    = Some (VString (dir +:+ "/" +:+ name +:+ ".go")) →
  plain_name name →
  Category (entry_breadcrumb entry) = name.
Proof.
  intros Hfile Hname. unfold entry_breadcrumb. cbn [Category]. rewrite Hfile.
  destruct (dir +:+ "/" +:+ name +:+ ".go") as [|z t] eqn:Hpath.
  { apply (f_equal String.length) in Hpath.
    rewrite !length_append in Hpath. simpl in Hpath. lia. }
  rewrite <- Hpath.
  assert (∃ x rest, name +:+ ".go" = String x rest) as (x & rest & Hbase).
  { destruct name; simpl; eauto. }
  rewrite (filepath_Base_last dir (name +:+ ".go") x rest Hbase).
  - unfold Split_first. rewrite index_after_plain.
    + apply slice_to_append.
    + eapply Forall_impl; [exact Hname|]. by intros c [_ ?].
  - rewrite chars_append. apply Forall_app. split.
    + eapply Forall_impl; [exact Hname|]. intros c [Hc _].
      unfold is_slash. by apply Ascii.eqb_neq.
    + by repeat constructor.
Qed.

Lemma breadcrumb_category_is_file_name_witness :
  Category
    (entry_breadcrumb (createLogEntry sample_site (Some "lookup failed")))
  = "describe".
Proof.
  apply (breadcrumb_category_is_file_name
           (createLogEntry sample_site (Some "lookup failed"))
           "/pkg/commands/service" "describe").
  - reflexivity.
  - unfold plain_name. simpl. repeat constructor; discriminate.
Defined.

(** ** What the redaction leaves and what it replaces *)

Lemma filter_bytes_clean (s : list ascii) : clean (filter_bytes s).
Proof.
  rewrite filter_bytes_redact. apply flag_pass_clean, token_pass_clean.
Qed.

Lemma REDACTED_token_chars : Forall (λ c, is_token_char c = true) REDACTED.
Proof. by repeat constructor. Qed.

(** X16: in the output of [FilterToken], the word Token followed by one
    space and a whole token-shaped value occurs only with the value
    REDACTED, at every position. *)
Theorem FilterToken_leaves_no_token (input : string)
    (pre v rest : list ascii) :
  list_ascii_of_string (FilterToken input) = pre ++ token_word ++ v ++ rest →
  v ≠ [] → Forall (λ c, is_token_char c = true) v → head_not_token rest →
  v = REDACTED.
Proof.
  unfold FilterToken. rewrite list_ascii_of_string_of_list_ascii.
  intros Hout Hv Hall Hrest.
  pose proof (filter_bytes_clean (list_ascii_of_string input) (length pre))
    as Hs.
  rewrite Hout, drop_app_length in Hs.
  destruct (Hs (v ++ rest) (strip_prefix_refl _ _)) as [Hh|(r & Hr & Hh)].
  - destruct v as [|c v]; [done|]. apply Forall_cons_1 in Hall as [Hc _].
    simpl in Hh. congruence.
  - destruct (take_while_app_stop is_token_char v rest Hall) as [Hv1 _].
    { by destruct rest. }
    destruct (take_while_app_stop is_token_char REDACTED r
                REDACTED_token_chars) as [Hv2 _].
    { by destruct r. }
    rewrite <- Hv1, Hr. exact Hv2.
Qed.

Lemma FilterToken_leaves_no_token_witness :
  list_ascii_of_string (FilterToken "x: Token abc-123.")
    = chars "x: " ++ token_word ++ REDACTED ++ chars "." ∧
  REDACTED = REDACTED.
Proof.
  split; [vm_compute; reflexivity|].
  apply (FilterToken_leaves_no_token "x: Token abc-123."
           (chars "x: ") REDACTED (chars ".")).
  - vm_compute. reflexivity.
  - discriminate.
  - exact REDACTED_token_chars.
  - reflexivity.
Defined.

Lemma strip_token_word_None (x y : list ascii) (i : nat) :
  "T"%char ∉ x → " "%char ∉ y →
  strip_prefix token_word (drop i (x ++ y)) = None.
Proof.
  intros Hx Hy.
  destruct (strip_prefix token_word (drop i (x ++ y))) as [t|] eqn:Hs; [|done].
  exfalso. apply strip_prefix_app in Hs.
  destruct (decide (i < length x)) as [Hi|Hi].
  - rewrite drop_app_le in Hs by lia.
    destruct (drop i x) as [|c u] eqn:Hd.
    { apply (f_equal length) in Hd. rewrite length_drop in Hd. simpl in Hd. lia. }
    injection Hs as -> _. apply Hx.
    apply (subseteq_drop i x). rewrite Hd. by left.
  - rewrite drop_app_ge in Hs by lia. apply Hy.
    apply (subseteq_drop (i - length x) y). rewrite Hs.
    unfold token_word. apply (bool_decide_unpack _). by vm_compute.
Qed.

Lemma token_pass_no_word (x y : list ascii) :
  "T"%char ∉ x → " "%char ∉ y → token_pass (x ++ y) = x ++ y.
Proof.
  intros Hx Hy. apply scan_no_match. intros i.
  apply token_step_None. intros t Ht.
  by rewrite strip_token_word_None in Ht.
Qed.

Lemma not_elem_of_class (p : ascii → bool) (c : ascii) (u : list ascii) :
  Forall (λ x, p x = true) u → p c = false → c ∉ u.
Proof.
  intros Hu Hc Hin. rewrite Forall_forall in Hu. apply Hu in Hin. congruence.
Qed.

Lemma opt_byte_class (p : ascii → bool) (u : list ascii) :
  opt_byte p u → Forall (λ x, p x = true) u.
Proof. intros [->|(c & -> & Hc)]; by repeat constructor. Qed.

Lemma drop_while_all (p : ascii → bool) (u v : list ascii) :
  Forall (λ x, p x = true) u → drop_while p (u ++ v) = drop_while p v.
Proof.
  intros Hu. induction Hu as [|x u Hx _ IH]; simpl; [done|]. by rewrite Hx.
Qed.

Lemma skip_sep_separator (ws1 eq ws2 oq : list ascii) :
  Forall (λ c, is_space c = true) ws1 → opt_byte is_equals eq →
  Forall (λ c, is_space c = true) ws2 → opt_byte is_quote oq →
  skip_sep (ws1 ++ eq ++ ws2 ++ oq) = [].
Proof.
  intros H1 Heq H2 Hq. unfold skip_sep. rewrite drop_while_all by done.
  assert (drop_opt is_quote (drop_while is_space oq) = []) as Hoq.
  { destruct Hq as [->|(c & -> & Hc)]; [done|]. simpl.
    replace (is_space c) with false; [simpl; by rewrite Hc|].
    revert Hc. by_ascii_cases c. }
  destruct Heq as [->|(c & -> & Hc)].
  - simpl app. rewrite drop_while_all by done.
    destruct Hq as [->|(c & -> & Hc)]; [done|]. simpl.
    replace (is_space c) with false by (revert Hc; by_ascii_cases c).
    simpl. replace (is_equals c) with false by (revert Hc; by_ascii_cases c).
    simpl. replace (is_space c) with false by (revert Hc; by_ascii_cases c).
    simpl. by rewrite Hc.
  - simpl app. cbn [drop_while].
    replace (is_space c) with false by (revert Hc; by_ascii_cases c).
    cbn [drop_opt]. rewrite Hc. rewrite drop_while_all by done. exact Hoq.
Qed.

(** X17: a flag argument, made of [-t] or [--token], whitespace, an
    optional [=], whitespace, an optional opening quote, a token-shaped
    value and an optional closing quote, has its value replaced by
    REDACTED, and nothing else changed. *)
Theorem FilterToken_redacts_flag_value
    (fl ws1 eq ws2 oq v q : list ascii) :
  is_flag fl →
  Forall (λ c, is_space c = true) ws1 → opt_byte is_equals eq →
  Forall (λ c, is_space c = true) ws2 → opt_byte is_quote oq →
  v ≠ [] → Forall (λ c, is_token_char c = true) v →
  opt_byte is_quote q →
  FilterToken (string_of_list_ascii (fl ++ ws1 ++ eq ++ ws2 ++ oq ++ v ++ q))
  = string_of_list_ascii (fl ++ ws1 ++ eq ++ ws2 ++ oq ++ REDACTED ++ q).
Proof.
  intros Hfl H1 Heq H2 Hoq Hv Hall Hq.
  unfold FilterToken. rewrite list_ascii_of_string_of_list_ascii. f_equal.
  rewrite filter_bytes_redact. unfold redact.
  set (sep := ws1 ++ eq ++ ws2 ++ oq).
  replace (fl ++ ws1 ++ eq ++ ws2 ++ oq ++ v ++ q)
    with ((fl ++ sep) ++ v ++ q) by (unfold sep; by rewrite <- !app_assoc).
  replace (fl ++ ws1 ++ eq ++ ws2 ++ oq ++ REDACTED ++ q)
    with (fl ++ sep ++ REDACTED ++ q) by (unfold sep; by rewrite <- !app_assoc).
  rewrite token_pass_no_word.
  - replace ((fl ++ sep) ++ v ++ q) with (fl ++ sep ++ v ++ q ++ [])
      by (by rewrite app_nil_r, <- app_assoc).
    rewrite (scan_Some flag_step _ (fl ++ sep ++ REDACTED ++ q)
               (length fl + length sep + length v + length q)
               flag_step_keeps_head).
    + rewrite drop_ge; [by rewrite <- !app_assoc, app_nil_r|].
      rewrite !length_app. simpl. lia.
    + apply flag_step_intro; try done.
      * by apply skip_sep_separator.
      * rewrite app_nil_r. destruct Hq as [->|(c & -> & Hc)]; [done|].
        simpl. revert Hc. by_ascii_cases c.
      * rewrite app_nil_r. destruct Hq as [->|(c & -> & Hc)]; [done|].
        simpl. by rewrite Hc.
  - unfold sep. rewrite !not_elem_of_app. split_and!.
    + destruct Hfl as [->| ->]; apply (bool_decide_unpack _); by vm_compute.
    + by apply (not_elem_of_class is_space).
    + apply (not_elem_of_class is_equals); [by apply opt_byte_class|done].
    + by apply (not_elem_of_class is_space).
    + apply (not_elem_of_class is_quote); [by apply opt_byte_class|done].
  - rewrite not_elem_of_app. split.
    + by apply (not_elem_of_class is_token_char).
    + apply (not_elem_of_class is_quote); [by apply opt_byte_class|done].
Qed.

Lemma FilterToken_redacts_flag_value_witness :
  FilterToken "--token  = 'abc_123'" = "--token  = 'REDACTED'".
Proof.
  apply (FilterToken_redacts_flag_value
           long_flag (chars "  ") (chars "=") (chars " ") (chars "'")
           (chars "abc_123") (chars "'")).
  - by right.
  - by repeat constructor.
  - right. by exists "="%char.
  - by repeat constructor.
  - right. by exists "'"%char.
  - discriminate.
  - by repeat constructor.
  - right. by exists "'"%char.
Defined.
